(** * OSMemory: the native memory-access layer of libcore

    A shallow embedding of
    [luni/src/main/native/org_apache_harmony_luni_platform_OSMemory.cpp]:
    byte-order swapping, scalar peek/poke at raw addresses, the tracked
    malloc/free pair, the mmap wrapper, the residency query and the unsafe
    array copy.

    Conventions of the embedding.
    - A [jshort], [jint] or [jlong] is a [Z] in the signed range of its
      width; every C conversion is written out ([to_jint], [to_size_t], ...).
    - Native memory is a flat, little-endian array of bytes indexed by the
      unsigned address (both supported targets, ARM and x86, are
      little-endian).  As in the source, no access is bounds-checked.
    - What the environment answers (the accounting authority, [calloc],
      [mmap], [mincore], the JNI pinning calls) is an explicit argument of
      the function that consumes it. *)

From Stdlib Require Import String ZArith List Lia Bool Btauto.
From coqutil Require Import Byte Word.LittleEndianList Z.bitblast.
Import ListNotations.
Local Open Scope Z_scope.

(* ================================================================= *)
(** ** Fixed-width integers *)

Module Int.

(** The value of [z] converted to an unsigned [w]-bit integer. *)
Definition unsigned (w z : Z) : Z := z mod 2 ^ w.

(** The value of [z] converted to a signed (two's complement) [w]-bit
    integer. *)
Definition signed (w z : Z) : Z :=
  let u := z mod 2 ^ w in
  if u <? 2 ^ (w - 1) then u else u - 2 ^ w.

Definition in_signed (w z : Z) : Prop := - 2 ^ (w - 1) <= z < 2 ^ (w - 1).

End Int.

Definition to_jbyte : Z -> Z := Int.signed 8.
Definition to_jshort : Z -> Z := Int.signed 16.
Definition to_jint : Z -> Z := Int.signed 32.
Definition to_jlong : Z -> Z := Int.signed 64.
Definition to_uint16 : Z -> Z := Int.unsigned 16.
Definition to_uint32 : Z -> Z := Int.unsigned 32.
Definition to_uint64 : Z -> Z := Int.unsigned 64.
(** Both targets are ILP32: pointers and [size_t] are 32 bits wide. *)
Definition to_uintptr_t : Z -> Z := Int.unsigned 32.
Definition to_size_t : Z -> Z := Int.unsigned 32.
Definition to_off_t : Z -> Z := Int.signed 32.

Definition is_jshort : Z -> Prop := Int.in_signed 16.
Definition is_jint : Z -> Prop := Int.in_signed 32.
Definition is_jlong : Z -> Prop := Int.in_signed 64.

Definition sizeof_jlong : Z := 8.

(** [template <typename T> static T cast(jint address)]: the address as an
    unsigned pointer value. *)
Definition cast (address : Z) : Z := to_uintptr_t address.

(* ================================================================= *)
(** ** Byte swapping *)

(** Modelled from the spec: [bswap_16], [bswap_32] and [bswap_64] come from
    the system header <byteswap.h>, which is not among the sources; they
    reverse the byte order of an unsigned 16-, 32- and 64-bit scalar, written
    here as the usual mask-and-shift expressions. *)
Definition bswap_16 (x : Z) : Z :=
  Z.lor (Z.shiftl (Z.land x 0xff) 8) (Z.shiftr (Z.land x 0xff00) 8).

Definition bswap_32 (x : Z) : Z :=
  Z.lor (Z.lor (Z.shiftl (Z.land x 0xff) 24)
               (Z.shiftl (Z.land x 0xff00) 8))
        (Z.lor (Z.shiftr (Z.land x 0xff0000) 8)
               (Z.shiftr (Z.land x 0xff000000) 24)).

Definition bswap_64 (x : Z) : Z :=
  Z.lor (Z.lor (Z.lor (Z.shiftl (Z.land x 0xff) 56)
                      (Z.shiftl (Z.land x 0xff00) 40))
               (Z.lor (Z.shiftl (Z.land x 0xff0000) 24)
                      (Z.shiftl (Z.land x 0xff000000) 8)))
        (Z.lor (Z.lor (Z.shiftr (Z.land x 0xff00000000) 8)
                      (Z.shiftr (Z.land x 0xff0000000000) 24))
               (Z.lor (Z.shiftr (Z.land x 0xff000000000000) 40)
                      (Z.shiftr (Z.land x 0xff00000000000000) 56))).

(** [fastSwap16(jshort& v)]: [rev16] on ARM, [bswap_16] elsewhere; either
    way the two bytes of [v] are exchanged. *)
Definition fastSwap16 (v : Z) : Z := to_jshort (bswap_16 (to_uint16 v)).

(** [fastSwap32(jint& v)]: [rev] on ARM, [bswap_32] elsewhere. *)
Definition fastSwap32 (v : Z) : Z := to_jint (bswap_32 (to_uint32 v)).

(** [value = bswap_64(value)] on a [jlong]. *)
Definition swap64 (v : Z) : Z := to_jlong (bswap_64 (to_uint64 v)).

(* ================================================================= *)
(** ** Native memory *)

Definition mem : Type := Z -> byte.

Definition store8 (m : mem) (a : Z) (b : byte) : mem :=
  fun x => if x =? a then b else m x.

Fixpoint store_bytes (m : mem) (a : Z) (bs : list byte) : mem :=
  match bs with
  | [] => m
  | b :: bs' => store_bytes (store8 m a b) (a + 1) bs'
  end.

Fixpoint load_bytes (m : mem) (a : Z) (n : nat) : list byte :=
  match n with
  | O => []
  | S n' => m a :: load_bytes m (a + 1) n'
  end.

(** A little-endian load of [n] bytes, as an unsigned value, and the store
    of the [n] low bytes of [v]. *)
Definition load (n : nat) (m : mem) (a : Z) : Z := le_combine (load_bytes m a n).
Definition store (n : nat) (m : mem) (a v : Z) : mem := store_bytes m a (le_split n v).

Definition load_jbyte (m : mem) (a : Z) : Z := to_jbyte (load 1 m a).
Definition load_jshort (m : mem) (a : Z) : Z := to_jshort (load 2 m a).
Definition load_jint (m : mem) (a : Z) : Z := to_jint (load 4 m a).
Definition load_jlong (m : mem) (a : Z) : Z := to_jlong (load 8 m a).
Definition store_jbyte : mem -> Z -> Z -> mem := store 1.
Definition store_jshort : mem -> Z -> Z -> mem := store 2.
Definition store_jint : mem -> Z -> Z -> mem := store 4.
Definition store_jlong : mem -> Z -> Z -> mem := store 8.

(** [memset]-like fill of [n] bytes at [a], as [calloc] zeroes its block. *)
Definition fill (m : mem) (a n : Z) (b : byte) : mem :=
  fun x => if (a <=? x) && (x <? a + n) then b else m x.

(** Modelled from the spec: [memmove(d, s, n)] of the C library; the [n]
    source bytes are read before any is written. *)
Definition memmove (m : mem) (d s n : Z) : mem :=
  store_bytes m d (load_bytes m s (Z.to_nat n)).

(* ================================================================= *)
(** ** The swap-array routines *)

(** The pair loop of [swapShorts]: [n] 32-bit words, each holding two
    packed 16-bit elements; returns the memory and the advanced [dst] and
    [src] cursors. *)
Fixpoint swapShorts_words (n : nat) (m : mem) (dst src : Z) : mem * Z * Z :=
  match n with
  | O => (m, dst, src)
  | S n' =>
      let v := load_jint m src in                          (* v=ABCD *)
      let v := fastSwap32 v in                             (* v=DCBA *)
      let v2 := to_jint (Z.lor (Z.shiftl v 16)
                               (Z.land (Z.shiftr v 16) 0xffff)) in (* v=BADC *)
      swapShorts_words n' (store_jint m dst v2) (dst + 4) (src + 4)
  end.

Definition swapShorts (m : mem) (dstShorts srcShorts : Z) (count : nat) : mem :=
  let '(m1, dst, src) := swapShorts_words (count / 2) m dstShorts srcShorts in
  if negb (count mod 2 =? 0)%nat then
    let v := load_jshort m1 src in
    store_jshort m1 dst (fastSwap16 v)
  else m1.

Fixpoint swapInts (m : mem) (dstInts srcInts : Z) (count : nat) : mem :=
  match count with
  | O => m
  | S count' =>
      let v := load_jint m srcInts in
      swapInts (store_jint m dstInts (fastSwap32 v)) (dstInts + 4) (srcInts + 4) count'
  end.

Fixpoint swapLongs (m : mem) (dst src : Z) (count : nat) : mem :=
  match count with
  | O => m
  | S count' =>
      let v1 := load_jint m src in
      let v2 := load_jint m (src + 4) in
      let m1 := store_jint m dst (fastSwap32 v2) in
      let m2 := store_jint m1 (dst + 4) (fastSwap32 v1) in
      swapLongs m2 (dst + 8) (src + 8) count'
  end.

(** The reference the pair loop is compared with: every 16-bit element is
    swapped on its own, one after the other. *)
Fixpoint swapShorts_each (m : mem) (dst src : Z) (count : nat) : mem :=
  match count with
  | O => m
  | S count' =>
      let v := load_jshort m src in
      swapShorts_each (store_jshort m dst (fastSwap16 v)) (dst + 2) (src + 2) count'
  end.

(* ================================================================= *)
(** ** The process state seen by the native methods *)

Inductive exception : Type :=
| OutOfMemoryError
| IOException (errnum : Z).

(** Calls made on the VM runtime, the external accounting authority. *)
Inductive runtime_call : Type :=
| trackExternalAllocation (size : Z)
| trackExternalFree (size : Z).

Inductive log_priority : Type := WARN | ERROR.

Record log_entry : Type := mkLog {
  log_prio : log_priority;
  log_format : string;
  log_arg : Z
}.

Inductive syscall : Type :=
| Mmap (addr length prot flags fd offset : Z).

Inductive jni_call : Type :=
| GetByteArrayElements
| ReleaseByteArrayElements (mode : Z)
| GetPrimitiveArrayCritical
| ReleasePrimitiveArrayCritical (mode : Z).

Record state : Type := mkState {
  memory : mem;
  heap : list (Z * Z);            (* live [calloc] blocks: base and length *)
  runtime : list runtime_call;    (* calls received by the authority, oldest first *)
  pending : option exception;     (* the pending Java exception *)
  logcat : list log_entry;
  syscalls : list syscall;
  jni : list jni_call
}.

Definition set_memory (m : mem) (st : state) : state :=
  mkState m (heap st) (runtime st) (pending st) (logcat st) (syscalls st) (jni st).
Definition set_heap (h : list (Z * Z)) (st : state) : state :=
  mkState (memory st) h (runtime st) (pending st) (logcat st) (syscalls st) (jni st).
Definition call_runtime (c : runtime_call) (st : state) : state :=
  mkState (memory st) (heap st) (runtime st ++ [c]) (pending st) (logcat st)
          (syscalls st) (jni st).
(** [jniThrowException]: the exception becomes the pending one. *)
Definition jniThrowException (e : exception) (st : state) : state :=
  mkState (memory st) (heap st) (runtime st) (Some e) (logcat st) (syscalls st) (jni st).
(** [jniThrowIOException(env, errnum)]. *)
Definition jniThrowIOException (errnum : Z) (st : state) : state :=
  jniThrowException (IOException errnum) st.
Definition write_log (l : log_entry) (st : state) : state :=
  mkState (memory st) (heap st) (runtime st) (pending st) (logcat st ++ [l])
          (syscalls st) (jni st).
Definition ALOGW (format : string) (arg : Z) : state -> state :=
  write_log (mkLog WARN format arg).
Definition ALOGE (format : string) (arg : Z) : state -> state :=
  write_log (mkLog ERROR format arg).
Definition do_syscall (c : syscall) (st : state) : state :=
  mkState (memory st) (heap st) (runtime st) (pending st) (logcat st)
          (syscalls st ++ [c]) (jni st).
Definition call_jni (c : jni_call) (st : state) : state :=
  mkState (memory st) (heap st) (runtime st) (pending st) (logcat st)
          (syscalls st) (jni st ++ [c]).

(** Modelled from the spec: [calloc] belongs to the C library, not to the
    sources.  [calloc(n, 1)], answered by the system allocator with [ret]:
    [None] is a NULL result; [Some p] is a new live block of [n] zeroed
    bytes at [p]. *)
Definition calloc (ret : option Z) (n : Z) (st : state) : option Z * state :=
  match ret with
  | None => (None, st)
  | Some p => (Some p, set_heap ((p, n) :: heap st)
                         (set_memory (fill (memory st) p n Byte.x00) st))
  end.

(** Modelled from the spec: [free(p)] of the C library; the block that
    starts at [p] is no longer live. *)
Definition free (p : Z) (st : state) : state :=
  set_heap (filter (fun b => negb (fst b =? p)) (heap st)) st.

(* ================================================================= *)
(** ** Tracked allocation *)

(** [OSMemory_malloc].  [allowed] is the answer of
    [VMRuntime.trackExternalAllocation], [calloc_ret] the answer of
    [calloc]. *)
Definition OSMemory_malloc (allowed : bool) (calloc_ret : option Z)
    (size : Z) (st : state) : Z * state :=
  let st := call_runtime (trackExternalAllocation (to_jlong size)) st in
  if negb allowed then
    let st := ALOGW "External allocation of %d bytes was rejected\n" size st in
    let st := jniThrowException OutOfMemoryError st in
    (0, st)
  else
    match calloc calloc_ret (to_size_t (size + sizeof_jlong)) st with
    | (None, st) =>
        let st := jniThrowException OutOfMemoryError st in
        (0, st)
    | (Some block, st) =>
        let result := block in
        let st := set_memory (store_jlong (memory st) result (to_jlong size)) st in
        let result := result + sizeof_jlong in
        (to_jint (to_uintptr_t result), st)
    end.

(** [OSMemory_free]; returns the state only. *)
Definition OSMemory_free (address : Z) (st : state) : state :=
  let p := to_uintptr_t address in
  let p := p - sizeof_jlong in
  let size := load_jlong (memory st) p in
  let st := call_runtime (trackExternalFree size) st in
  free p st.

(** [OSMemory_memmove]. *)
Definition OSMemory_memmove (m : mem) (dstAddress srcAddress length : Z) : mem :=
  memmove m (cast dstAddress) (cast srcAddress) (to_size_t length).

(* ================================================================= *)
(** ** Scalar peek and poke *)

Definition OSMemory_peekByte (m : mem) (srcAddress : Z) : Z :=
  load_jbyte m (cast srcAddress).

Definition OSMemory_pokeByte (m : mem) (dstAddress value : Z) : mem :=
  store_jbyte m (cast dstAddress) value.

Definition OSMemory_peekShort (m : mem) (srcAddress : Z) (swap : bool) : Z :=
  let result := load_jshort m (cast srcAddress) in
  if swap then fastSwap16 result else result.

Definition OSMemory_pokeShort (m : mem) (dstAddress value : Z) (swap : bool) : mem :=
  let value := if swap then fastSwap16 value else value in
  store_jshort m (cast dstAddress) value.

Definition OSMemory_peekInt (m : mem) (srcAddress : Z) (swap : bool) : Z :=
  let result := load_jint m (cast srcAddress) in
  if swap then fastSwap32 result else result.

Definition OSMemory_pokeInt (m : mem) (dstAddress value : Z) (swap : bool) : mem :=
  let value := if swap then fastSwap32 value else value in
  store_jint m (cast dstAddress) value.

(** The object representation of a [jlong] local: its eight bytes, lowest
    address first, and the value such bytes denote. *)
Definition jlong_bytes (v : Z) : list byte := le_split 8 v.
Definition jlong_of_bytes (bs : list byte) : Z := to_jlong (le_combine bs).

Section LongAccess.

(** [LONG_ALIGNMENT_MASK]: [0x3] on 32-bit ARM, [0x0] on x86. *)
Variable LONG_ALIGNMENT_MASK : Z.

Definition OSMemory_peekLong (m : mem) (srcAddress : Z) (swap : bool) : Z :=
  let result :=
    if Z.land srcAddress LONG_ALIGNMENT_MASK =? 0 then
      load_jlong m (cast srcAddress)
    else
      (* Handle unaligned memory access one byte at a time *)
      let src := cast srcAddress in
      jlong_of_bytes [m src; m (src + 1); m (src + 2); m (src + 3);
                      m (src + 4); m (src + 5); m (src + 6); m (src + 7)] in
  if swap then swap64 result else result.

Definition OSMemory_pokeLong (m : mem) (dstAddress value : Z) (swap : bool) : mem :=
  let value := if swap then swap64 value else value in
  if Z.land dstAddress LONG_ALIGNMENT_MASK =? 0 then
    store_jlong m (cast dstAddress) value
  else
    (* Handle unaligned memory access one byte at a time *)
    let src := fun i => nth i (jlong_bytes value) Byte.x00 in
    let dst := cast dstAddress in
    let m := store8 m dst (src 0%nat) in
    let m := store8 m (dst + 1) (src 1%nat) in
    let m := store8 m (dst + 2) (src 2%nat) in
    let m := store8 m (dst + 3) (src 3%nat) in
    let m := store8 m (dst + 4) (src 4%nat) in
    let m := store8 m (dst + 5) (src 5%nat) in
    let m := store8 m (dst + 6) (src 6%nat) in
    let m := store8 m (dst + 7) (src 7%nat) in
    m.

End LongAccess.

Definition ARM_LONG_ALIGNMENT_MASK : Z := 0x3.
Definition X86_LONG_ALIGNMENT_MASK : Z := 0x0.

(* ================================================================= *)
(** ** Memory mapping *)

(** Modelled from the spec: the constants of <sys/mman.h>, <errno.h> and
    <jni.h> are not among the sources; they are given the values they have
    on the supported (Linux) targets.  The statements below use them by
    name only. *)
Definition PROT_READ : Z := 0x1.
Definition PROT_WRITE : Z := 0x2.
Definition MAP_SHARED : Z := 0x01.
Definition MAP_PRIVATE : Z := 0x02.
Definition MAP_FAILED : Z := to_uintptr_t (-1).
Definition EINVAL : Z := 22.
Definition JNI_ABORT : Z := 2.

(** The protection and sharing flags selected by the [switch] on
    [mapMode]; [None] is the [default:] branch. *)
Definition map_mode_flags (mapMode : Z) : option (Z * Z) :=
  match mapMode with
  | 0 => (* MapMode.PRIVATE *) Some (Z.lor PROT_READ PROT_WRITE, MAP_PRIVATE)
  | 1 => (* MapMode.READ_ONLY *) Some (PROT_READ, MAP_SHARED)
  | 2 => (* MapMode.READ_WRITE *) Some (Z.lor PROT_READ PROT_WRITE, MAP_SHARED)
  | _ => None
  end.

(** [OSMemory_mmapImpl].  [mmap_ret] is what [mmap] returns and [errno] the
    value of [errno] after the call. *)
Definition OSMemory_mmapImpl (mmap_ret errno : Z)
    (fd offset size mapMode : Z) (st : state) : Z * state :=
  match map_mode_flags mapMode with
  | None =>
      let st := jniThrowIOException EINVAL st in
      let st := ALOGE "bad mapMode %i" mapMode st in
      (-1, st)
  | Some (prot, flags) =>
      let st := do_syscall (Mmap 0 (to_size_t size) prot flags fd (to_off_t offset)) st in
      let mapAddress := mmap_ret in
      let st := if mapAddress =? MAP_FAILED then jniThrowIOException errno st else st in
      (to_jint mapAddress, st)
  end.

(* ================================================================= *)
(** ** Residency *)

(** The loop over the [page_count] entries of [vec]. *)
Fixpoint all_pages_resident (vec : Z -> Z) (i : Z) (n : nat) : bool :=
  match n with
  | O => true
  | S n' => if negb (vec i =? 1) then false else all_pages_resident vec (i + 1) n'
  end.

Section Residency.

(** [getpagesize()]. *)
Variable page_size : Z.

(** [mincore(addr, length, vec)]: the return code and what the kernel
    wrote into [vec]. *)
Variable mincore : Z -> Z -> Z * (Z -> Z).

(** The page-aligned address, the length and the page count that
    [OSMemory_isLoaded] derives from its arguments. *)
Definition isLoaded_range (address size : Z) : Z * Z * Z :=
  let align_offset := Z.rem address page_size in
  let address := to_jint (address - align_offset) in
  let size := to_jlong (size + align_offset) in
  let page_count := to_jint (Z.quot (to_jlong (size + page_size - 1)) page_size) in
  (address, size, page_count).

Definition OSMemory_isLoaded (address size : Z) : bool :=
  if size =? 0 then true
  else
    let '(address, size, page_count) := isLoaded_range address size in
    let '(rc, vec) := mincore (cast address) (to_size_t size) in
    if rc =? -1 then false
    else all_pages_resident vec 0 (Z.to_nat page_count).

End Residency.

(** Modelled from the spec: the kernel side of the residency query, for a
    residency map over page numbers.  [mincore] rejects a start address
    that is not page-aligned and a range that leaves the address space, and
    otherwise reports one byte per page, [1] for a resident page and [0]
    for any other. *)
Definition kernel_mincore (page_size : Z) (resident : Z -> bool)
    (addr length : Z) : Z * (Z -> Z) :=
  if (addr mod page_size =? 0) && (addr + length <=? 2 ^ 32) then
    (0, fun i => if resident (addr / page_size + i) then 1 else 0)
  else (-1, fun _ => 0).

(** The pages a byte range [[a, a + n)] touches. *)
Definition page_in_range (page_size a n p : Z) : Prop :=
  a / page_size <= p <= (a + n - 1) / page_size.

(* ================================================================= *)
(** ** Unsafe array copy *)

(** [OSMemory_unsafeArrayCopy].  [srcBytes] is what [ScopedByteArrayRO]
    obtained for [src] and [dstBytes] what [GetPrimitiveArrayCritical]
    returned for [dst] ([None] for NULL); on Dalvik both point at the
    array's own storage.  The destructor of [ScopedByteArrayRO] releases a
    non-NULL [srcBytes] with [JNI_ABORT]. *)
Definition OSMemory_unsafeArrayCopy (srcBytes dstBytes : option Z)
    (dstOffset byteCount srcOffset sizeofElement : Z) (swap : bool)
    (st : state) : state :=
  let st := call_jni GetByteArrayElements st in
  match srcBytes with
  | None => st
  | Some srcBytes =>
      let st := call_jni GetPrimitiveArrayCritical st in
      match dstBytes with
      | None => call_jni (ReleaseByteArrayElements JNI_ABORT) st
      | Some dstBytes =>
          let m := memory st in
          let m :=
            if swap then
              if sizeofElement =? 2 then
                let dstShorts := dstBytes + dstOffset in
                let srcShorts := srcBytes + 2 * srcOffset in
                swapShorts m dstShorts srcShorts (Z.to_nat (to_size_t (Z.quot byteCount 2)))
              else if sizeofElement =? 4 then
                let dstInts := dstBytes + dstOffset in
                let srcInts := srcBytes + 4 * srcOffset in
                swapInts m dstInts srcInts (Z.to_nat (to_size_t (Z.quot byteCount 4)))
              else if sizeofElement =? 8 then
                let dstLongs := dstBytes + dstOffset in
                let srcLongs := srcBytes + 8 * srcOffset in
                swapLongs m dstLongs srcLongs (Z.to_nat (to_size_t (Z.quot byteCount 8)))
              else m
            else
              memmove m (dstBytes + dstOffset)
                      (srcBytes + to_jint (srcOffset * sizeofElement))
                      (to_size_t byteCount) in
          let st := set_memory m st in
          let st := call_jni (ReleasePrimitiveArrayCritical 0) st in
          call_jni (ReleaseByteArrayElements JNI_ABORT) st
      end
  end.

(* ================================================================= *)
(** ** Call sequences of a client *)

(** The state-changing operations a client interleaves between an
    allocation and its release. *)
Inductive call : Type :=
| Malloc (allowed : bool) (calloc_ret : option Z) (size : Z)
| Free (address : Z)
| PokeByte (dstAddress value : Z)
| PokeShort (dstAddress value : Z) (swap : bool)
| PokeInt (dstAddress value : Z) (swap : bool)
| PokeLong (dstAddress value : Z) (swap : bool)
| Memmove (dstAddress srcAddress length : Z).

Definition on_memory (f : mem -> mem) (st : state) : state :=
  set_memory (f (memory st)) st.

Definition exec (mask : Z) (c : call) (st : state) : state :=
  match c with
  | Malloc allowed calloc_ret size => snd (OSMemory_malloc allowed calloc_ret size st)
  | Free address => OSMemory_free address st
  | PokeByte a v => on_memory (fun m => OSMemory_pokeByte m a v) st
  | PokeShort a v swap => on_memory (fun m => OSMemory_pokeShort m a v swap) st
  | PokeInt a v swap => on_memory (fun m => OSMemory_pokeInt m a v swap) st
  | PokeLong a v swap => on_memory (fun m => OSMemory_pokeLong mask m a v swap) st
  | Memmove d s n => on_memory (fun m => OSMemory_memmove m d s n) st
  end.

(** What the system allocator guarantees of a block it hands out: it is
    not NULL, lies inside the address space and overlaps no live block. *)
Definition fresh_block (st : state) (p n : Z) : Prop :=
  0 < p /\ p + n < 2 ^ 32 /\
  forall b l, In (b, l) (heap st) -> p + n <= b \/ b + l <= p.

(** The byte range [[a, a + w)] stays clear of the size header of the
    block at [p]. *)
Definition clear_of_header (p a w : Z) : Prop := a + w <= p \/ p + sizeof_jlong <= a.

(** The client's side of the contract while the allocation at [address]
    is live: its writes stay out of the hidden header, it does not release
    [address], and the allocator answers every further request for a
    non-negative size with a fresh block. *)
Definition respects (address : Z) (st : state) (c : call) : Prop :=
  let p := cast address - sizeof_jlong in
  match c with
  | Malloc allowed calloc_ret size =>
      allowed = true ->
      forall q, calloc_ret = Some q -> 0 <= size < 2 ^ 31 /\ fresh_block st q (size + sizeof_jlong)
  | Free b => cast b <> cast address
  | PokeByte a _ => clear_of_header p (cast a) 1
  | PokeShort a _ _ => clear_of_header p (cast a) 2
  | PokeInt a _ _ => clear_of_header p (cast a) 4
  | PokeLong a _ _ => clear_of_header p (cast a) 8
  | Memmove d _ n => clear_of_header p (cast d) (to_size_t n)
  end.

(** The states an allocation lives through: any sequence of contract-
    respecting calls. *)
Inductive lifetime (mask address : Z) : state -> state -> Prop :=
| lifetime_begin st : lifetime mask address st st
| lifetime_call st st' c :
    lifetime mask address st st' ->
    respects address st' c ->
    lifetime mask address st (exec mask c st').

(** [st'] still has the block of [l] bytes at [p] and the header bytes
    [st] had there. *)
Definition keeps_block (p l : Z) (st st' : state) : Prop :=
  (forall x, p <= x < p + sizeof_jlong -> memory st' x = memory st x)
  /\ (In (p, l) (heap st) -> In (p, l) (heap st')).

(** A process that has allocated nothing yet; its memory holds garbage. *)
Definition initial_state : state :=
  mkState (fun _ => Byte.xff) [] [] None [] [] [].

(* ================================================================= *)
(** ** Block-wise views of the swap-array routines *)

(** A copy of [n] blocks of [k] bytes from [src] to [dst], lowest block
    first, each passed through [f] on its way. *)
Fixpoint copy_blocks (k : nat) (f : list byte -> list byte)
    (m : mem) (dst src : Z) (n : nat) : mem :=
  match n with
  | O => m
  | S n' =>
      copy_blocks k f (store_bytes m dst (f (load_bytes m src k)))
                  (dst + Z.of_nat k) (src + Z.of_nat k) n'
  end.

(** [f] applied to each of the [n] blocks of [k] bytes of a buffer. *)
Fixpoint map_blocks (k : nat) (f : list byte -> list byte)
    (n : nat) (l : list byte) : list byte :=
  match n with
  | O => []
  | S n' => f (firstn k l) ++ map_blocks k f n' (skipn k l)
  end.

(** Every 16-bit, 32-bit or 64-bit element of a buffer byte-reversed on
    its own. *)
Definition swap_each (width : nat) (count : nat) (l : list byte) : list byte :=
  map_blocks width (@rev byte) count l.

(** A forward copy of [len] bytes never reads a byte it has already
    overwritten: the destination starts at or below the source, or beyond
    its end. *)
Definition forward_safe (dst src len : Z) : Prop :=
  dst <= src \/ src + len <= dst.

(* ================================================================= *)
(** ** Bulk transfers between Java arrays and native memory *)

Definition is_jbyte : Z -> Prop := Int.in_signed 8.

(** A Java primitive array: where its elements are stored and how many it
    has.  On Dalvik the pinning calls hand out the address of this storage
    itself (the source relies on that: "it doesn't copy"). *)
Record jarray : Type := mkArray {
  storage : Z;
  array_length : Z
}.

(** How a bulk transfer ends: with the new memory, with an
    [ArrayIndexOutOfBoundsException] raised by a JNI region function, or
    with nothing done because the array could not be pinned. *)
Inductive transfer : Type :=
| Transferred (m : mem)
| ArrayIndexOutOfBounds
| PinFailed.

(** Modelled from the spec: the JNI region functions belong to the VM, not
    to the sources.  [Get<T>ArrayRegion(array, start, len, buf)] copies
    [len] elements of [w] bytes out of the array into [buf], and
    [Set<T>ArrayRegion] copies them from [buf] into the array; both refuse
    a region that is not inside the array. *)
Definition region_inside (a : jarray) (start len : Z) : bool :=
  negb ((start <? 0) || (len <? 0) || (array_length a <? start + len)).

Definition GetArrayRegion (w : nat) (m : mem) (a : jarray) (start len buf : Z) : transfer :=
  if region_inside a start len then
    Transferred (store_bytes m buf
                   (load_bytes m (storage a + Z.of_nat w * start) (Z.to_nat len * w)))
  else ArrayIndexOutOfBounds.

Definition SetArrayRegion (w : nat) (m : mem) (a : jarray) (start len buf : Z) : transfer :=
  if region_inside a start len then
    Transferred (store_bytes m (storage a + Z.of_nat w * start)
                   (load_bytes m buf (Z.to_nat len * w)))
  else ArrayIndexOutOfBounds.

(** [OSMemory_peekByteArray] and [OSMemory_pokeByteArray]. *)
Definition OSMemory_peekByteArray (m : mem) (srcAddress : Z) (dst : jarray)
    (dstOffset byteCount : Z) : transfer :=
  SetArrayRegion 1 m dst dstOffset byteCount (cast srcAddress).

Definition OSMemory_pokeByteArray (m : mem) (dstAddress : Z) (src : jarray)
    (offset length : Z) : transfer :=
  GetArrayRegion 1 m src offset length (cast dstAddress).

Section PeekPokeArray.

(** [sizeof(SWAP_TYPE)] (which is also [sizeof(SCALAR_TYPE)]) and
    [SWAP_FN]. *)
Variable w : nat.
Variable SWAP_FN : mem -> Z -> Z -> nat -> mem.

(** What [Scoped<T>ArrayRW] / [Scoped<T>ArrayRO] obtained: [None] for
    NULL. *)
Variable elements : option Z.

(** The macro [PEEKER]: native memory to a Java array. *)
Definition PEEKER (m : mem) (srcAddress : Z) (dst : jarray)
    (dstOffset count : Z) (swap : bool) : transfer :=
  if swap then
    match elements with
    | None => PinFailed
    | Some elements =>
        let src := cast srcAddress in
        Transferred (SWAP_FN m (elements + Z.of_nat w * dstOffset) src
                       (Z.to_nat (to_size_t count)))
    end
  else
    let src := cast srcAddress in
    SetArrayRegion w m dst dstOffset count src.

(** The macro [POKER]: a Java array to native memory. *)
Definition POKER (m : mem) (dstAddress : Z) (src : jarray)
    (srcOffset count : Z) (swap : bool) : transfer :=
  if swap then
    match elements with
    | None => PinFailed
    | Some elements =>
        let src := elements + Z.of_nat w * srcOffset in
        Transferred (SWAP_FN m (cast dstAddress) src (Z.to_nat (to_size_t count)))
    end
  else
    GetArrayRegion w m src srcOffset count (cast dstAddress).

End PeekPokeArray.

Definition OSMemory_peekDoubleArray := PEEKER 8 swapLongs.
Definition OSMemory_peekFloatArray := PEEKER 4 swapInts.
Definition OSMemory_peekIntArray := PEEKER 4 swapInts.
Definition OSMemory_peekLongArray := PEEKER 8 swapLongs.
Definition OSMemory_peekShortArray := PEEKER 2 swapShorts.

Definition OSMemory_pokeDoubleArray := POKER 8 swapLongs.
Definition OSMemory_pokeFloatArray := POKER 4 swapInts.
Definition OSMemory_pokeIntArray := POKER 4 swapInts.
Definition OSMemory_pokeLongArray := POKER 8 swapLongs.
Definition OSMemory_pokeShortArray := POKER 2 swapShorts.

(** The element range [[offset, offset + count)] lies inside the array. *)
Definition in_bounds (a : jarray) (offset count : Z) : Prop :=
  0 <= offset /\ 0 <= count < 2 ^ 31 /\ offset + count <= array_length a.

(** The element widths of the bulk transfers, each with the swap-array
    routine the source pairs it with. *)
Definition swap_routines : list (nat * (mem -> Z -> Z -> nat -> mem)) :=
  [(2%nat, swapShorts); (4%nat, swapInts); (8%nat, swapLongs)].

(* ================================================================= *)
(** * Properties *)

(** ** Fixed-width conversions *)

Lemma pow2_double w : 0 < w -> 2 ^ w = 2 * 2 ^ (w - 1).
Proof.
  intros Hw. replace w with (Z.succ (w - 1)) at 1 by lia.
  apply Z.pow_succ_r. lia.
Qed.

Lemma signed_mod w z : 0 < w -> Int.signed w z mod 2 ^ w = z mod 2 ^ w.
Proof.
  intros Hw. unfold Int.signed. cbv zeta.
  destruct (z mod 2 ^ w <? 2 ^ (w - 1)).
  - apply Z.mod_mod. apply Z.pow_nonzero; lia.
  - rewrite Zminus_mod, Z_mod_same_full, Z.sub_0_r, !Z.mod_mod;
      try (apply Z.pow_nonzero; lia). reflexivity.
Qed.

Lemma signed_range w z : 0 < w -> Int.in_signed w (Int.signed w z).
Proof.
  intros Hw. unfold Int.in_signed, Int.signed. cbv zeta.
  pose proof (Z.mod_pos_bound z (2 ^ w) ltac:(apply Z.pow_pos_nonneg; lia)) as Hb.
  pose proof (pow2_double w Hw) as Hd.
  destruct (Z.ltb_spec (z mod 2 ^ w) (2 ^ (w - 1))); lia.
Qed.

Lemma signed_id w z : 0 < w -> Int.in_signed w z -> Int.signed w z = z.
Proof.
  intros Hw [Hlo Hhi]. unfold Int.signed. cbv zeta.
  pose proof (pow2_double w Hw) as Hd.
  assert (Hp : 0 < 2 ^ (w - 1)) by (apply Z.pow_pos_nonneg; lia).
  destruct (Z.le_gt_cases 0 z) as [Hz | Hz].
  - rewrite Z.mod_small by lia.
    destruct (Z.ltb_spec z (2 ^ (w - 1))); lia.
  - replace (z mod 2 ^ w) with (z + 2 ^ w).
    + destruct (Z.ltb_spec (z + 2 ^ w) (2 ^ (w - 1))); lia.
    + symmetry. rewrite <- (Z.mod_add z 1 (2 ^ w)) by lia.
      rewrite Z.mul_1_l. apply Z.mod_small. lia.
Qed.

Lemma signed_unsigned w z : 0 < w -> Int.signed w (Int.unsigned w z) = Int.signed w z.
Proof.
  intros Hw. unfold Int.signed, Int.unsigned.
  rewrite Z.mod_mod by (apply Z.pow_nonzero; lia). reflexivity.
Qed.

Lemma unsigned_signed w z : 0 < w -> Int.unsigned w (Int.signed w z) = Int.unsigned w z.
Proof. intros Hw. apply signed_mod. exact Hw. Qed.

(** Splitting into [n] bytes only looks at the low [8 n] bits. *)
Lemma le_split_signed n z :
  (0 < n)%nat -> le_split n (Int.signed (Z.of_nat n * 8) z) = le_split n z.
Proof.
  intros Hn. rewrite le_split_mod, signed_mod by lia.
  symmetry. apply le_split_mod.
Qed.

Lemma le_split_unsigned n z :
  le_split n (Int.unsigned (Z.of_nat n * 8) z) = le_split n z.
Proof. symmetry. apply le_split_mod. Qed.

(** ** Byte swaps reverse the little-endian byte list *)

Lemma byte_unsigned_of_Z_land y : byte.unsigned (byte.of_Z y) = Z.land y (Z.ones 8).
Proof.
  rewrite byte.unsigned_of_Z. unfold byte.wrap.
  rewrite Z.land_ones by lia. reflexivity.
Qed.

Lemma mask_shiftl x s t :
  0 <= s -> 0 <= t ->
  Z.shiftl (Z.land x (Z.shiftl (Z.ones 8) s)) t
  = Z.shiftl (Z.land (Z.shiftr x s) (Z.ones 8)) (s + t).
Proof. intros. Z.bitblast. Qed.

Lemma mask_shiftr x s t :
  0 <= t <= s ->
  Z.shiftr (Z.land x (Z.shiftl (Z.ones 8) s)) t
  = Z.shiftl (Z.land (Z.shiftr x s) (Z.ones 8)) (s - t).
Proof. intros. Z.bitblast. Qed.

(** The byte masks of the source, as shifted runs of eight ones. *)
Ltac mask_shape :=
  change 0xff with (Z.shiftl (Z.ones 8) 0);
  change 0xff00 with (Z.shiftl (Z.ones 8) 8);
  change 0xff0000 with (Z.shiftl (Z.ones 8) 16);
  change 0xff000000 with (Z.shiftl (Z.ones 8) 24);
  change 0xff00000000 with (Z.shiftl (Z.ones 8) 32);
  change 0xff0000000000 with (Z.shiftl (Z.ones 8) 40);
  change 0xff000000000000 with (Z.shiftl (Z.ones 8) 48);
  change 0xff00000000000000 with (Z.shiftl (Z.ones 8) 56).

Ltac fold_consts :=
  repeat match goal with
         | |- context [Z.add (Zpos ?a) (Zpos ?b)] =>
             let c := eval cbv in (Z.add (Zpos a) (Zpos b)) in
             change (Z.add (Zpos a) (Zpos b)) with c
         | |- context [Z.add 0 (Zpos ?b)] => change (Z.add 0 (Zpos b)) with (Zpos b)
         | |- context [Z.sub (Zpos ?a) (Zpos ?b)] =>
             let c := eval cbv in (Z.sub (Zpos a) (Zpos b)) in
             change (Z.sub (Zpos a) (Zpos b)) with c
         end.

(** Both sides become a disjunction of shifted bytes; the bits then agree
    up to the order of the disjuncts. *)
Ltac bswap_as_bytes :=
  mask_shape;
  rewrite ?mask_shiftl, ?mask_shiftr by lia;
  cbv [le_split rev app le_combine];
  rewrite ?byte_unsigned_of_Z_land;
  rewrite ?Z.shiftr_shiftr by lia;
  rewrite ?Z.shiftl_lor, ?Z.shiftl_shiftl by lia;
  rewrite ?Z.shiftl_0_l, ?Z.lor_0_r, ?Z.shiftl_0_r, ?Z.shiftr_0_r;
  fold_consts;
  apply Z.bits_inj'; intros ? _; rewrite ?Z.lor_spec; btauto.

Lemma bswap_16_le x : bswap_16 x = le_combine (rev (le_split 2 x)).
Proof. unfold bswap_16. bswap_as_bytes. Qed.

Lemma bswap_32_le x : bswap_32 x = le_combine (rev (le_split 4 x)).
Proof. unfold bswap_32. bswap_as_bytes. Qed.

Lemma bswap_64_le x : bswap_64 x = le_combine (rev (le_split 8 x)).
Proof. unfold bswap_64. bswap_as_bytes. Qed.

Lemma le_split_rev_combine n x :
  le_split n (le_combine (rev (le_split n x))) = rev (le_split n x).
Proof.
  apply split_le_combine'. rewrite length_rev. apply length_le_split.
Qed.

Lemma le_split_fastSwap16 v : le_split 2 (fastSwap16 v) = rev (le_split 2 v).
Proof.
  unfold fastSwap16, to_jshort, to_uint16.
  rewrite (le_split_signed 2) by lia.
  rewrite bswap_16_le, le_split_rev_combine, (le_split_unsigned 2). reflexivity.
Qed.

Lemma le_split_fastSwap32 v : le_split 4 (fastSwap32 v) = rev (le_split 4 v).
Proof.
  unfold fastSwap32, to_jint, to_uint32.
  rewrite (le_split_signed 4) by lia.
  rewrite bswap_32_le, le_split_rev_combine, (le_split_unsigned 4). reflexivity.
Qed.

Lemma le_split_swap64 v : le_split 8 (swap64 v) = rev (le_split 8 v).
Proof.
  unfold swap64, to_jlong, to_uint64.
  rewrite (le_split_signed 8) by lia.
  rewrite bswap_64_le, le_split_rev_combine, (le_split_unsigned 8). reflexivity.
Qed.

(** A signed value is determined by its bytes. *)
Lemma le_split_signed_inj n a b :
  (0 < n)%nat ->
  Int.in_signed (Z.of_nat n * 8) a -> Int.in_signed (Z.of_nat n * 8) b ->
  le_split n a = le_split n b -> a = b.
Proof.
  intros Hn Ha Hb Heq.
  apply (f_equal le_combine) in Heq. rewrite !le_combine_split in Heq.
  rewrite <- (signed_id (Z.of_nat n * 8) a), <- (signed_id (Z.of_nat n * 8) b) by (assumption || lia).
  unfold Int.signed. rewrite Heq. reflexivity.
Qed.

Lemma fastSwap16_involutive v : is_jshort v -> fastSwap16 (fastSwap16 v) = v.
Proof.
  intros Hv. apply (le_split_signed_inj 2); try assumption; try lia.
  - apply (signed_range 16). lia.
  - rewrite !le_split_fastSwap16. apply rev_involutive.
Qed.

Lemma fastSwap32_involutive v : is_jint v -> fastSwap32 (fastSwap32 v) = v.
Proof.
  intros Hv. apply (le_split_signed_inj 4); try assumption; try lia.
  - apply (signed_range 32). lia.
  - rewrite !le_split_fastSwap32. apply rev_involutive.
Qed.

Lemma swap64_involutive v : is_jlong v -> swap64 (swap64 v) = v.
Proof.
  intros Hv. apply (le_split_signed_inj 8); try assumption; try lia.
  - apply (signed_range 64). lia.
  - rewrite !le_split_swap64. apply rev_involutive.
Qed.

(** ** Loads and stores *)

Lemma length_load_bytes m a n : length (load_bytes m a n) = n.
Proof. revert a. induction n; intros a; simpl; [reflexivity | now rewrite IHn]. Qed.

Lemma store_bytes_outside bs : forall m a x,
  x < a \/ a + Z.of_nat (length bs) <= x -> store_bytes m a bs x = m x.
Proof.
  induction bs as [| b bs IH]; intros m a x Hx; simpl; [reflexivity |].
  rewrite IH by (simpl length in Hx; lia).
  unfold store8. destruct (Z.eqb_spec x a); [simpl length in Hx; lia | reflexivity].
Qed.

Lemma load_bytes_ext n : forall m1 m2 a,
  (forall x, a <= x < a + Z.of_nat n -> m1 x = m2 x) ->
  load_bytes m1 a n = load_bytes m2 a n.
Proof.
  induction n as [| n IH]; intros m1 m2 a H; simpl; [reflexivity |].
  f_equal; [apply H; lia | apply IH; intros x Hx; apply H; lia].
Qed.

Lemma load_store_bytes bs : forall m a,
  load_bytes (store_bytes m a bs) a (length bs) = bs.
Proof.
  induction bs as [| b bs IH]; intros m a; simpl; [reflexivity |].
  f_equal; [| apply IH].
  rewrite store_bytes_outside by lia.
  unfold store8. now rewrite Z.eqb_refl.
Qed.

Lemma store_bytes_app l1 : forall l2 m a,
  store_bytes m a (l1 ++ l2)
  = store_bytes (store_bytes m a l1) (a + Z.of_nat (length l1)) l2.
Proof.
  induction l1 as [| b l1 IH]; intros l2 m a; simpl app; simpl store_bytes.
  - simpl. now rewrite Z.add_0_r.
  - rewrite IH. f_equal. simpl length. lia.
Qed.

Lemma load_bytes_app n1 n2 m a :
  load_bytes m a (n1 + n2)
  = load_bytes m a n1 ++ load_bytes m (a + Z.of_nat n1) n2.
Proof.
  revert a. induction n1 as [| n1 IH]; intros a.
  - simpl. now rewrite Z.add_0_r.
  - cbn [Nat.add load_bytes app]. rewrite IH. do 3 f_equal. lia.
Qed.

Lemma load_store n m a v : load n (store n m a v) a = v mod 2 ^ (Z.of_nat n * 8).
Proof.
  unfold load, store.
  rewrite <- (length_le_split n v) at 2.
  rewrite load_store_bytes. apply le_combine_split.
Qed.

Lemma load_store_jshort m a v : load_jshort (store_jshort m a v) a = to_jshort v.
Proof.
  unfold load_jshort, store_jshort. rewrite load_store.
  apply (signed_unsigned 16). lia.
Qed.

Lemma load_store_jint m a v : load_jint (store_jint m a v) a = to_jint v.
Proof.
  unfold load_jint, store_jint. rewrite load_store.
  apply (signed_unsigned 32). lia.
Qed.

Lemma load_store_jlong m a v : load_jlong (store_jlong m a v) a = to_jlong v.
Proof.
  unfold load_jlong, store_jlong. rewrite load_store.
  apply (signed_unsigned 64). lia.
Qed.

Lemma to_jshort_id v : is_jshort v -> to_jshort v = v.
Proof. apply (signed_id 16). lia. Qed.

Lemma to_jint_id v : is_jint v -> to_jint v = v.
Proof. apply (signed_id 32). lia. Qed.

Lemma to_jlong_id v : is_jlong v -> to_jlong v = v.
Proof. apply (signed_id 64). lia. Qed.

Lemma fastSwap16_range v : is_jshort (fastSwap16 v).
Proof. apply (signed_range 16). lia. Qed.

Lemma fastSwap32_range v : is_jint (fastSwap32 v).
Proof. apply (signed_range 32). lia. Qed.

Lemma swap64_range v : is_jlong (swap64 v).
Proof. apply (signed_range 64). lia. Qed.

(** ** The two access paths of the 8-byte accessors *)

Lemma eight_bytes (bs : list byte) :
  length bs = 8%nat ->
  exists b0 b1 b2 b3 b4 b5 b6 b7, bs = [b0; b1; b2; b3; b4; b5; b6; b7].
Proof.
  intros H.
  do 8 (destruct bs as [| ? bs]; [discriminate H |]).
  destruct bs; [| discriminate H]. repeat eexists.
Qed.

Ltac flat_addresses :=
  rewrite <- ?Z.add_assoc; cbn [Z.add Pos.add Pos.succ].

(** Whatever the alignment mask, a poke is the plain 8-byte store... *)
Lemma pokeLong_store mask m a v swap :
  OSMemory_pokeLong mask m a v swap
  = store_jlong m (cast a) (if swap then swap64 v else v).
Proof.
  unfold OSMemory_pokeLong.
  destruct (Z.land a mask =? 0); [reflexivity |].
  unfold store_jlong, store, jlong_bytes.
  destruct (eight_bytes (le_split 8 (if swap then swap64 v else v)))
    as (b0 & b1 & b2 & b3 & b4 & b5 & b6 & b7 & E); [apply length_le_split |].
  rewrite E. cbn [nth store_bytes]. flat_addresses. reflexivity.
Qed.

(** ... and a peek is the plain 8-byte load. *)
Lemma peekLong_load mask m a swap :
  OSMemory_peekLong mask m a swap
  = (if swap then swap64 (load_jlong m (cast a)) else load_jlong m (cast a)).
Proof.
  unfold OSMemory_peekLong.
  destruct (Z.land a mask =? 0); [reflexivity |].
  unfold jlong_of_bytes, load_jlong, load. cbn [load_bytes].
  flat_addresses. reflexivity.
Qed.

(** ** Block copies *)

Lemma firstn_app_exact {A} n (l1 l2 : list A) :
  length l1 = n -> firstn n (l1 ++ l2) = l1.
Proof.
  intros <-. rewrite firstn_app, firstn_all, Nat.sub_diag, firstn_O.
  apply app_nil_r.
Qed.

Lemma skipn_app_exact {A} n (l1 l2 : list A) :
  length l1 = n -> skipn n (l1 ++ l2) = l2.
Proof.
  intros <-. rewrite skipn_app, skipn_all, Nat.sub_diag. reflexivity.
Qed.

Section BlockCopy.

Variable k : nat.
Variable f : list byte -> list byte.
Hypothesis f_length : forall bs, length bs = k -> length (f bs) = k.

Lemma copy_blocks_outside n : forall m dst src x,
  x < dst \/ dst + Z.of_nat k * Z.of_nat n <= x ->
  copy_blocks k f m dst src n x = m x.
Proof.
  induction n as [| n IH]; intros m dst src x Hx; simpl; [reflexivity |].
  rewrite IH by lia.
  apply store_bytes_outside.
  rewrite f_length by apply length_load_bytes. lia.
Qed.

Lemma copy_blocks_content n : forall m dst src,
  forward_safe dst src (Z.of_nat k * Z.of_nat n) ->
  load_bytes (copy_blocks k f m dst src n) dst (n * k)
  = map_blocks k f n (load_bytes m src (n * k)).
Proof.
  induction n as [| n IH]; intros m dst src Hsafe; [reflexivity |].
  cbn [copy_blocks map_blocks Nat.mul].
  rewrite !load_bytes_app.
  rewrite firstn_app_exact, skipn_app_exact by apply length_load_bytes.
  f_equal.
  - rewrite <- (load_store_bytes (f (load_bytes m src k)) m dst) at 2.
    rewrite f_length by apply length_load_bytes.
    apply load_bytes_ext. intros x Hx.
    apply copy_blocks_outside. lia.
  - rewrite IH by (unfold forward_safe in *; lia).
    f_equal. apply load_bytes_ext. intros x Hx.
    apply store_bytes_outside.
    rewrite f_length by apply length_load_bytes.
    unfold forward_safe in Hsafe. lia.
Qed.

Hypothesis f_involutive : forall bs, length bs = k -> f (f bs) = bs.

Lemma map_blocks_involutive n : forall l,
  length l = (n * k)%nat -> map_blocks k f n (map_blocks k f n l) = l.
Proof.
  induction n as [| n IH]; intros l Hl.
  - destruct l; [reflexivity | discriminate Hl].
  - cbn [map_blocks].
    assert (Hfirst : length (firstn k l) = k)
      by (rewrite length_firstn; simpl in Hl; lia).
    rewrite firstn_app_exact, skipn_app_exact by (apply f_length, Hfirst).
    rewrite f_involutive by exact Hfirst.
    rewrite IH by (rewrite length_skipn; simpl in Hl; lia).
    apply firstn_skipn.
Qed.

Lemma length_map_blocks n : forall l,
  length l = (n * k)%nat -> length (map_blocks k f n l) = (n * k)%nat.
Proof.
  induction n as [| n IH]; intros l Hl; [reflexivity |].
  cbn [map_blocks]. rewrite length_app.
  rewrite f_length by (rewrite length_firstn; simpl in Hl; lia).
  rewrite IH by (rewrite length_skipn; simpl in Hl; lia).
  reflexivity.
Qed.

End BlockCopy.

(** ** The swap-array routines as block copies *)

Lemma le_split_load_signed n m a :
  (0 < n)%nat ->
  le_split n (Int.signed (Z.of_nat n * 8) (load n m a)) = load_bytes m a n.
Proof.
  intros Hn. rewrite le_split_signed by exact Hn.
  apply split_le_combine'. apply length_load_bytes.
Qed.

(** One iteration of [swapInts]. *)
Lemma swap_int_step m dst src :
  store_jint m dst (fastSwap32 (load_jint m src))
  = store_bytes m dst (rev (load_bytes m src 4)).
Proof.
  unfold store_jint, store. rewrite le_split_fastSwap32.
  unfold load_jint, to_jint. now rewrite (le_split_load_signed 4) by lia.
Qed.

(** One iteration of the per-element reference. *)
Lemma swap_short_step m dst src :
  store_jshort m dst (fastSwap16 (load_jshort m src))
  = store_bytes m dst (rev (load_bytes m src 2)).
Proof.
  unfold store_jshort, store. rewrite le_split_fastSwap16.
  unfold load_jshort, to_jshort. now rewrite (le_split_load_signed 2) by lia.
Qed.

Lemma swapInts_blocks count : forall m dst src,
  swapInts m dst src count = copy_blocks 4 (@rev byte) m dst src count.
Proof.
  induction count as [| count IH]; intros m dst src; [reflexivity |].
  cbn [swapInts copy_blocks]. rewrite swap_int_step. apply IH.
Qed.

Lemma swapShorts_each_blocks count : forall m dst src,
  swapShorts_each m dst src count = copy_blocks 2 (@rev byte) m dst src count.
Proof.
  induction count as [| count IH]; intros m dst src; [reflexivity |].
  cbn [swapShorts_each copy_blocks]. rewrite swap_short_step. apply IH.
Qed.

Lemma swapLongs_blocks count : forall m dst src,
  swapLongs m dst src count = copy_blocks 8 (@rev byte) m dst src count.
Proof.
  induction count as [| count IH]; intros m dst src; [reflexivity |].
  cbn [swapLongs copy_blocks]. cbv zeta.
  rewrite IH. f_equal.
  unfold store_jint, store. rewrite !le_split_fastSwap32.
  unfold load_jint, to_jint. rewrite !(le_split_load_signed 4) by lia.
  change 8%nat with (4 + 4)%nat.
  rewrite load_bytes_app, rev_app_distr, store_bytes_app.
  rewrite length_rev, length_load_bytes. reflexivity.
Qed.

(** The exchange of the two halves of a word, on its bytes. *)
Lemma le_split_halves v :
  le_split 4 (to_jint (Z.lor (Z.shiftl v 16) (Z.land (Z.shiftr v 16) 0xffff)))
  = skipn 2 (le_split 4 v) ++ firstn 2 (le_split 4 v).
Proof.
  unfold to_jint. rewrite (le_split_signed 4) by lia.
  change 0xffff with (Z.ones 16).
  cbv [le_split skipn firstn app].
  repeat (apply f_equal2; [| try reflexivity]);
    apply byte.unsigned_inj; rewrite !byte_unsigned_of_Z_land; Z.bitblast;
    repeat match goal with
           | |- context [Z.testbit ?x ?j] => rewrite (Z.testbit_neg_r x j) by lia
           end;
    btauto.
Qed.

Lemma four_bytes (bs : list byte) :
  length bs = 4%nat -> exists b0 b1 b2 b3, bs = [b0; b1; b2; b3].
Proof.
  intros H.
  do 4 (destruct bs as [| ? bs]; [discriminate H |]).
  destruct bs; [| discriminate H]. repeat eexists.
Qed.

(** One iteration of the pair loop of [swapShorts] moves two elements,
    each with its two bytes exchanged. *)
Lemma swap_word_step m dst src :
  store_jint m dst
    (to_jint (Z.lor (Z.shiftl (fastSwap32 (load_jint m src)) 16)
                    (Z.land (Z.shiftr (fastSwap32 (load_jint m src)) 16) 0xffff)))
  = store_bytes m dst (rev (load_bytes m src 2) ++ rev (load_bytes m (src + 2) 2)).
Proof.
  unfold store_jint, store. rewrite le_split_halves, le_split_fastSwap32.
  unfold load_jint, to_jint. rewrite (le_split_load_signed 4) by lia.
  cbn [load_bytes rev app skipn firstn]. flat_addresses. reflexivity.
Qed.

(** Under [forward_safe], the pair loop over [n] words is the per-element
    reference over [2 n] elements. *)
Lemma swapShorts_words_each n : forall m dst src,
  forward_safe dst src (4 * Z.of_nat n) ->
  swapShorts_words n m dst src
  = (swapShorts_each m dst src (2 * n), dst + 4 * Z.of_nat n, src + 4 * Z.of_nat n).
Proof.
  induction n as [| n IH]; intros m dst src Hsafe.
  - cbn. now rewrite !Z.add_0_r.
  - cbn [swapShorts_words]. cbv zeta.
    rewrite swap_word_step, IH by (unfold forward_safe in *; lia).
    replace (2 * S n)%nat with (S (S (2 * n))) by lia.
    cbn [swapShorts_each]. cbv zeta.
    rewrite !swap_short_step, store_bytes_app.
    rewrite length_rev, length_load_bytes.
    replace (load_bytes (store_bytes m dst (rev (load_bytes m src 2))) (src + 2) 2)
      with (load_bytes m (src + 2) 2).
    + change (Z.of_nat 2) with 2.
      replace (dst + 2 + 2) with (dst + 4) by lia.
      replace (src + 2 + 2) with (src + 4) by lia.
      f_equal; [f_equal |]; lia.
    + apply load_bytes_ext. intros x Hx. symmetry.
      apply store_bytes_outside.
      rewrite length_rev, length_load_bytes.
      unfold forward_safe in Hsafe. lia.
Qed.

Lemma swapShorts_each_snoc count : forall m dst src,
  swapShorts_each m dst src (count + 1)
  = let m1 := swapShorts_each m dst src count in
    store_jshort m1 (dst + 2 * Z.of_nat count)
      (fastSwap16 (load_jshort m1 (src + 2 * Z.of_nat count))).
Proof.
  induction count as [| count IH]; intros m dst src.
  - cbn. now rewrite !Z.add_0_r.
  - cbn [Nat.add swapShorts_each]. cbv zeta. rewrite IH. cbv zeta.
    replace (dst + 2 + 2 * Z.of_nat count) with (dst + 2 * Z.of_nat (S count)) by lia.
    replace (src + 2 + 2 * Z.of_nat count) with (src + 2 * Z.of_nat (S count)) by lia.
    reflexivity.
Qed.

(** [swapShorts] is the per-element reference, whatever the parity of the
    count. *)
Lemma swapShorts_each_eq m dst src count :
  forward_safe dst src (2 * Z.of_nat count) ->
  swapShorts m dst src count = swapShorts_each m dst src count.
Proof.
  intros Hsafe. unfold swapShorts.
  pose proof (Nat.div_mod_eq count 2) as Hdm.
  pose proof (Nat.mod_upper_bound count 2 ltac:(lia)) as Hlt.
  rewrite swapShorts_words_each by (unfold forward_safe in *; lia).
  destruct (Nat.eqb_spec (count mod 2) 0) as [Heven | Hodd]; cbn [negb].
  - f_equal. lia.
  - replace (swapShorts_each m dst src count)
      with (swapShorts_each m dst src (2 * (count / 2) + 1)) by (f_equal; lia).
    rewrite swapShorts_each_snoc. cbv zeta.
    replace (2 * Z.of_nat (2 * (count / 2))) with (4 * Z.of_nat (count / 2)) by lia.
    reflexivity.
Qed.

Lemma load_bytes_pointwise n : forall m1 m2 a x,
  load_bytes m1 a n = load_bytes m2 a n ->
  a <= x < a + Z.of_nat n -> m1 x = m2 x.
Proof.
  induction n as [| n IH]; intros m1 m2 a x Heq Hx; [lia |].
  cbn [load_bytes] in Heq. injection Heq as Hhead Htail.
  destruct (Z.eq_dec x a) as [-> | Hne]; [exact Hhead |].
  apply (IH m1 m2 (a + 1)); [exact Htail | lia].
Qed.

Lemma rev_keeps_length {A} (k : nat) (bs : list A) : length bs = k -> length (rev bs) = k.
Proof. intros <-. apply length_rev. Qed.

Lemma rev_twice {A} (k : nat) (bs : list A) : length bs = k -> rev (rev bs) = bs.
Proof. intros _. apply rev_involutive. Qed.

(** Swapping from [a] to [b] and from [b] on to [c] leaves in [c] the
    bytes that were in [a]. *)
Lemma copy_blocks_twice k m a b c n :
  forward_safe b a (Z.of_nat k * Z.of_nat n) ->
  forward_safe c b (Z.of_nat k * Z.of_nat n) ->
  load_bytes (copy_blocks k (@rev byte) (copy_blocks k (@rev byte) m b a n) c b n) c (n * k)
  = load_bytes m a (n * k).
Proof.
  intros Hab Hbc.
  rewrite !copy_blocks_content by (assumption || apply rev_keeps_length).
  apply map_blocks_involutive;
    [apply rev_keeps_length | apply rev_twice | apply length_load_bytes].
Qed.

(** Swapping a buffer in place twice leaves the whole memory as it was. *)
Lemma copy_blocks_twice_in_place k m a n x :
  copy_blocks k (@rev byte) (copy_blocks k (@rev byte) m a a n) a a n x = m x.
Proof.
  destruct (Z_lt_dec x a) as [Hlo | Hlo];
    [| destruct (Z_le_dec (a + Z.of_nat k * Z.of_nat n) x) as [Hhi | Hhi]].
  - rewrite !copy_blocks_outside by (apply rev_keeps_length || lia). reflexivity.
  - rewrite !copy_blocks_outside by (apply rev_keeps_length || lia). reflexivity.
  - apply (load_bytes_pointwise (n * k) _ _ a); [| lia].
    apply copy_blocks_twice; left; lia.
Qed.

Example bswap_32_ex : bswap_32 0x01020304 = 0x04030201.
Proof. reflexivity. Qed.

(** ** Tracked allocation *)

Lemma to_size_t_small n : 0 <= n < 2 ^ 32 -> to_size_t n = n.
Proof. intros H. apply Z.mod_small. exact H. Qed.

Lemma cast_returned_pointer q : 0 <= q < 2 ^ 32 -> cast (to_jint (to_uintptr_t q)) = q.
Proof.
  intros H. unfold cast, to_jint, to_uintptr_t.
  rewrite (unsigned_signed 32) by lia.
  unfold Int.unsigned. rewrite Z.mod_mod by lia.
  apply Z.mod_small. exact H.
Qed.

Lemma is_jint_size N : 0 <= N < 2 ^ 31 -> is_jint N.
Proof. intros H. unfold is_jint, Int.in_signed. change (2 ^ (32 - 1)) with (2 ^ 31). lia. Qed.

Lemma is_jint_is_jlong N : is_jint N -> is_jlong N.
Proof.
  unfold is_jint, is_jlong, Int.in_signed.
  change (2 ^ (32 - 1)) with 2147483648.
  change (2 ^ (64 - 1)) with 9223372036854775808. lia.
Qed.

(** The state a granted allocation of [N >= 0] bytes leaves behind. *)
Lemma malloc_granted st N p :
  0 <= N < 2 ^ 31 ->
  OSMemory_malloc true (Some p) N st
  = (to_jint (to_uintptr_t (p + sizeof_jlong)),
     mkState (store_jlong (fill (memory st) p (N + sizeof_jlong) Byte.x00) p N)
             ((p, N + sizeof_jlong) :: heap st)
             (runtime st ++ [trackExternalAllocation N])
             (pending st) (logcat st) (syscalls st) (jni st)).
Proof.
  intros HN. unfold OSMemory_malloc, calloc. cbn [negb].
  rewrite (to_size_t_small (N + sizeof_jlong)), (to_jlong_id N);
    [reflexivity | apply is_jint_is_jlong, is_jint_size, HN
    | unfold sizeof_jlong; change (2 ^ 32) with (2 * 2 ^ 31); lia].
Qed.

Lemma load_jlong_ext m1 m2 p :
  (forall x, p <= x < p + 8 -> m1 x = m2 x) -> load_jlong m1 p = load_jlong m2 p.
Proof.
  intros H. unfold load_jlong, load. f_equal. f_equal.
  apply load_bytes_ext. exact H.
Qed.

Lemma store_outside n m a v x :
  x < a \/ a + Z.of_nat n <= x -> store n m a v x = m x.
Proof.
  intros H. unfold store. apply store_bytes_outside.
  rewrite length_le_split. exact H.
Qed.

(** The block a granted allocation creates: where the returned address
    points, what the header holds, and the accounting call made. *)
Lemma malloc_granted_block st N p :
  0 <= N < 2 ^ 31 ->
  0 < p -> p + (N + sizeof_jlong) < 2 ^ 32 ->
  let a := fst (OSMemory_malloc true (Some p) N st) in
  let st' := snd (OSMemory_malloc true (Some p) N st) in
  cast a = p + sizeof_jlong
  /\ load_jlong (memory st') (cast a - sizeof_jlong) = N
  /\ heap st' = (cast a - sizeof_jlong, N + sizeof_jlong) :: heap st
  /\ runtime st' = runtime st ++ [trackExternalAllocation N].
Proof.
  intros HN Hp Hend. cbv zeta.
  rewrite malloc_granted by exact HN. cbn [fst snd memory heap runtime].
  unfold sizeof_jlong in *.
  rewrite cast_returned_pointer by lia.
  replace (p + 8 - 8) with p by lia.
  repeat split.
  rewrite load_store_jlong.
  apply to_jlong_id, is_jint_is_jlong, is_jint_size, HN.
Qed.

(** The payload behind the header is zero. *)
Lemma malloc_granted_payload st N p i :
  0 <= N < 2 ^ 31 -> 0 <= i < N ->
  memory (snd (OSMemory_malloc true (Some p) N st)) (p + sizeof_jlong + i) = Byte.x00.
Proof.
  intros HN Hi. rewrite malloc_granted by exact HN. cbn [snd memory].
  unfold sizeof_jlong, store_jlong.
  rewrite store_outside by (simpl; lia).
  unfold fill.
  destruct (Z.leb_spec p (p + 8 + i)); [| lia].
  destruct (Z.ltb_spec (p + 8 + i) (p + (N + 8))); [reflexivity | lia].
Qed.

(** ** The header over the lifetime of an allocation *)

Lemma keeps_block_refl p l st : keeps_block p l st st.
Proof. split; auto. Qed.

Lemma keeps_block_trans p l st1 st2 st3 :
  keeps_block p l st1 st2 -> keeps_block p l st2 st3 -> keeps_block p l st1 st3.
Proof.
  intros [Hm12 Hh12] [Hm23 Hh23]. split.
  - intros x Hx. rewrite Hm23, Hm12 by exact Hx. reflexivity.
  - auto.
Qed.

Lemma poke_keeps_block n p l a v st :
  clear_of_header p a (Z.of_nat n) ->
  keeps_block p l st (on_memory (fun m => store n m a v) st).
Proof.
  intros Hclear. split; [| auto].
  intros x Hx. cbn [on_memory set_memory memory].
  apply store_outside. unfold clear_of_header in Hclear. lia.
Qed.

Lemma malloc_keeps_block p l allowed calloc_ret size st :
  sizeof_jlong <= l ->
  In (p, l) (heap st) ->
  (allowed = true -> forall q, calloc_ret = Some q ->
     0 <= size < 2 ^ 31 /\ fresh_block st q (size + sizeof_jlong)) ->
  keeps_block p l st (snd (OSMemory_malloc allowed calloc_ret size st)).
Proof.
  intros Hl Hin Hfresh.
  destruct allowed; [| split; auto].
  destruct calloc_ret as [q |]; [| split; auto].
  destruct (Hfresh eq_refl q eq_refl) as (Hsize & _ & _ & Hdisj).
  rewrite malloc_granted by exact Hsize. cbn [snd].
  split; cbn [memory heap]; [| intros H; right; exact H].
  intros x Hx. unfold sizeof_jlong in *.
  specialize (Hdisj p l Hin).
  unfold store_jlong. rewrite store_outside by (simpl; lia).
  unfold fill.
  destruct (Z.leb_spec q x); [| reflexivity].
  destruct (Z.ltb_spec x (q + (size + 8))); [lia | reflexivity].
Qed.

Lemma free_keeps_block p l b st :
  cast b - sizeof_jlong <> p ->
  keeps_block p l st (OSMemory_free b st).
Proof.
  intros Hne. split; [reflexivity |].
  intros Hin. unfold OSMemory_free, free, cast in *.
  cbn [heap set_heap call_runtime].
  apply filter_In. split; [exact Hin |].
  cbn [fst]. destruct (Z.eqb_spec p (to_uintptr_t b - sizeof_jlong)); [congruence | reflexivity].
Qed.

Lemma exec_keeps_block mask address l st c :
  sizeof_jlong <= l ->
  In (cast address - sizeof_jlong, l) (heap st) ->
  respects address st c ->
  keeps_block (cast address - sizeof_jlong) l st (exec mask c st).
Proof.
  intros Hl Hin Hresp.
  destruct c as [allowed calloc_ret size | b | a v | a v swap | a v swap | a v swap
                 | d s n];
    cbn [exec respects] in *.
  - apply malloc_keeps_block; assumption.
  - apply free_keeps_block. lia.
  - apply (poke_keeps_block 1). exact Hresp.
  - apply (poke_keeps_block 2). exact Hresp.
  - apply (poke_keeps_block 4). exact Hresp.
  - replace (on_memory (fun m => OSMemory_pokeLong mask m a v swap) st)
      with (on_memory (fun m => store 8 m (cast a) (if swap then swap64 v else v)) st)
      by (unfold on_memory; now rewrite pokeLong_store).
    apply (poke_keeps_block 8). exact Hresp.
  - split; [| auto]. intros x Hx.
    cbn [on_memory set_memory memory]. unfold OSMemory_memmove, memmove.
    pose proof (Z.mod_pos_bound n (2 ^ 32) ltac:(lia)) as Hn.
    apply store_bytes_outside.
    unfold clear_of_header, to_size_t, Int.unsigned, sizeof_jlong in *.
    rewrite length_load_bytes, Z2Nat.id by apply Hn. lia.
Qed.

Lemma lifetime_keeps_block mask address l st st' :
  sizeof_jlong <= l ->
  In (cast address - sizeof_jlong, l) (heap st) ->
  lifetime mask address st st' ->
  keeps_block (cast address - sizeof_jlong) l st st'.
Proof.
  intros Hl Hin Hlife.
  induction Hlife as [st | st st' c Hlife IH Hresp].
  - apply keeps_block_refl.
  - specialize (IH Hin).
    apply (keeps_block_trans _ _ _ _ _ IH).
    apply exec_keeps_block; [exact Hl | apply IH, Hin | exact Hresp].
Qed.

Lemma free_removes_block address st l :
  ~ In (cast address - sizeof_jlong, l) (heap (OSMemory_free address st)).
Proof.
  unfold OSMemory_free, free, cast. cbn [heap set_heap call_runtime].
  intros Hin. apply filter_In in Hin. destruct Hin as [_ Hkeep].
  cbn [fst] in Hkeep. rewrite Z.eqb_refl in Hkeep. discriminate Hkeep.
Qed.

(** ** Residency *)

Lemma all_pages_resident_spec vec n : forall i,
  all_pages_resident vec i n = true <->
  (forall j, i <= j < i + Z.of_nat n -> vec j = 1).
Proof.
  induction n as [| n IH]; intros i; cbn [all_pages_resident].
  - split; [intros _ j Hj; lia | reflexivity].
  - destruct (Z.eqb_spec (vec i) 1) as [Hres | Hres]; cbn [negb].
    + rewrite IH. split; intros H j Hj.
      * destruct (Z.eq_dec j i) as [-> | Hne]; [exact Hres | apply H; lia].
      * apply H. lia.
    + split; [discriminate |]. intros H. exfalso. apply Hres, H. lia.
Qed.

Lemma isLoaded_zero_size page_size mincore address :
  OSMemory_isLoaded page_size mincore address 0 = true.
Proof. reflexivity. Qed.

(** A failing [mincore] gives [false], not an error. *)
Lemma isLoaded_mincore_failure page_size mincore address size :
  size <> 0 ->
  (forall a l, fst (mincore a l) = -1) ->
  OSMemory_isLoaded page_size mincore address size = false.
Proof.
  intros Hsize Hfail. unfold OSMemory_isLoaded.
  destruct (Z.eqb_spec size 0); [contradiction |].
  destruct (isLoaded_range page_size address size) as [[address' size'] page_count].
  specialize (Hfail (cast address') (to_size_t size')).
  destruct (mincore (cast address') (to_size_t size')) as [rc vec].
  cbn [fst] in Hfail. rewrite Hfail. reflexivity.
Qed.

(** Below [2^31] the signed arithmetic of the source is the intended one:
    the range starts at the page boundary below [address] and counts every
    page up to the last byte. *)
Lemma isLoaded_range_low page_size address size :
  1 < page_size < 2 ^ 31 -> 0 <= address -> 0 < size -> address + size < 2 ^ 31 ->
  isLoaded_range page_size address size
  = (page_size * (address / page_size),
     size + address mod page_size,
     (address + size - 1) / page_size - address / page_size + 1).
Proof.
  intros Hps Ha Hs Hend. unfold isLoaded_range. cbv zeta.
  rewrite Z.rem_mod_nonneg by lia.
  pose proof (Z.mod_pos_bound address page_size ltac:(lia)) as Hmod.
  pose proof (Z.div_mod address page_size ltac:(lia)) as Hdm.
  assert (H31 : 2 ^ 31 = 2147483648) by reflexivity.
  assert (Hq : 0 <= address / page_size) by (apply Z.div_pos; lia).
  rewrite (to_jint_id (address - address mod page_size))
    by (unfold is_jint, Int.in_signed; change (2 ^ (32 - 1)) with (2 ^ 31); lia).
  rewrite (to_jlong_id (size + address mod page_size))
    by (unfold is_jlong, Int.in_signed; change (2 ^ (64 - 1)) with 9223372036854775808; lia).
  rewrite (to_jlong_id (size + address mod page_size + page_size - 1))
    by (unfold is_jlong, Int.in_signed; change (2 ^ (64 - 1)) with 9223372036854775808; lia).
  rewrite Z.quot_div_nonneg by lia.
  assert (Hcount : (size + address mod page_size + page_size - 1) / page_size
                   = (address + size - 1) / page_size - address / page_size + 1).
  { rewrite Hdm at 2.
    replace (page_size * (address / page_size) + address mod page_size + size - 1)
      with (size + address mod page_size - 1 + address / page_size * page_size) by lia.
    rewrite Z.div_add by lia.
    replace (size + address mod page_size + page_size - 1)
      with (size + address mod page_size - 1 + 1 * page_size) by lia.
    rewrite Z.div_add by lia. lia. }
  rewrite Hcount.
  assert (Hlast : (address + size - 1) / page_size < 1073741824).
  { apply Z.div_lt_upper_bound; lia. }
  assert (Hfirst : address / page_size <= (address + size - 1) / page_size)
    by (apply Z.div_le_mono; lia).
  rewrite to_jint_id
    by (unfold is_jint, Int.in_signed; change (2 ^ (32 - 1)) with (2 ^ 31); lia).
  f_equal. f_equal. lia.
Qed.

(** There the answer is [true] exactly when every page of the range is
    resident. *)
Lemma isLoaded_low_addresses page_size resident address size :
  1 < page_size < 2 ^ 31 -> 0 <= address -> 0 < size -> address + size < 2 ^ 31 ->
  OSMemory_isLoaded page_size (kernel_mincore page_size resident) address size = true
  <-> (forall p, page_in_range page_size address size p -> resident p = true).
Proof.
  intros Hps Ha Hs Hend. unfold OSMemory_isLoaded.
  destruct (Z.eqb_spec size 0); [lia |].
  rewrite isLoaded_range_low by assumption.
  pose proof (Z.mod_pos_bound address page_size ltac:(lia)) as Hmod.
  pose proof (Z.div_mod address page_size ltac:(lia)) as Hdm.
  assert (H31 : 2 ^ 31 = 2147483648) by reflexivity.
  assert (H32 : 2 ^ 32 = 4294967296) by reflexivity.
  assert (Hq : 0 <= address / page_size) by (apply Z.div_pos; lia).
  assert (Hfirst : address / page_size <= (address + size - 1) / page_size)
    by (apply Z.div_le_mono; lia).
  unfold cast, to_uintptr_t, to_size_t, Int.unsigned.
  rewrite !Z.mod_small by lia.
  unfold kernel_mincore.
  rewrite Z.mul_comm, Z.mod_mul by lia. rewrite Z.eqb_refl. cbn [andb].
  destruct (Z.leb_spec (address / page_size * page_size + (size + address mod page_size))
              (2 ^ 32)); [| lia].
  cbn [Z.eqb]. rewrite Z.div_mul by lia.
  rewrite all_pages_resident_spec. unfold page_in_range.
  rewrite Z2Nat.id by lia.
  split.
  - intros Hall p Hp. specialize (Hall (p - address / page_size) ltac:(lia)).
    replace (address / page_size + (p - address / page_size)) with p in Hall by lia.
    destruct (resident p); [reflexivity | discriminate Hall].
  - intros Hall j Hj. rewrite Hall by lia. reflexivity.
Qed.

(** ** Mapping modes *)

(** In the upper half of the address space, where the [jint] address is
    negative, the signed remainder is negative too: the start of the range
    moves up, not down, and the length shrinks. *)
Lemma isLoaded_range_high page_size address size :
  0 < page_size ->
  - 2 ^ 31 <= address < 0 ->
  Z.rem address page_size <> 0 ->
  Z.rem address page_size < 0
  /\ fst (fst (isLoaded_range page_size address size)) = address - Z.rem address page_size
  /\ address < fst (fst (isLoaded_range page_size address size))
  /\ snd (fst (isLoaded_range page_size address size))
     = to_jlong (size + Z.rem address page_size).
Proof.
  intros Hps Ha Hrem.
  pose proof (Z.rem_nonpos address page_size ltac:(lia) ltac:(lia)) as Hb.
  pose proof (Z.quot_rem' address page_size) as Hqr.
  assert (Hq : Z.quot address page_size <= 0).
  { apply Z.quot_le_upper_bound; lia. }
  unfold isLoaded_range. cbn [fst snd].
  rewrite to_jint_id
    by (unfold is_jint, Int.in_signed; change (2 ^ (32 - 1)) with (2 ^ 31); nia).
  repeat split; lia.
Qed.

Lemma map_mode_flags_other mapMode :
  mapMode <> 0 -> mapMode <> 1 -> mapMode <> 2 -> map_mode_flags mapMode = None.
Proof.
  intros H0 H1 H2.
  destruct mapMode as [| q | q]; [contradiction | | reflexivity].
  destruct q as [q | q |]; [| | contradiction].
  - reflexivity.
  - destruct q; [reflexivity | reflexivity | contradiction].
Qed.

(* ================================================================= *)
(** * The properties of the specification *)

Ltac in_range := cbv; split; [discriminate | reflexivity].

(** C1.  Scalar swap semantics: a poke with [swap = true] stores the
    byte-reversal of the value, so that after
    [pokeInt(A, 0x01020304, swap=true)] a [peekInt(A, swap=false)] yields
    [0x04030201] and a [peekInt(A, swap=true)] yields [0x01020304]; and for
    each of the widths short, int and long, and every value [v] of that
    width, a swapped poke followed by a swapped peek at the same address
    returns [v]. *)
Theorem scalar_swap_roundtrip (mask : Z) (m : mem) (A a vs vi vl : Z) :
  is_jshort vs -> is_jint vi -> is_jlong vl ->
  OSMemory_peekInt (OSMemory_pokeInt m A 0x01020304 true) A false = 0x04030201
  /\ OSMemory_peekInt (OSMemory_pokeInt m A 0x01020304 true) A true = 0x01020304
  /\ load_bytes (OSMemory_pokeInt m a vi true) (cast a) 4 = rev (le_split 4 vi)
  /\ OSMemory_peekShort (OSMemory_pokeShort m a vs true) a true = vs
  /\ OSMemory_peekInt (OSMemory_pokeInt m a vi true) a true = vi
  /\ OSMemory_peekLong mask (OSMemory_pokeLong mask m a vl true) a true = vl.
Proof.
  intros Hs Hi Hl.
  unfold OSMemory_peekInt, OSMemory_pokeInt, OSMemory_peekShort, OSMemory_pokeShort.
  rewrite peekLong_load, pokeLong_store.
  rewrite !load_store_jint, load_store_jshort, load_store_jlong.
  repeat split.
  - unfold store_jint, store.
    rewrite <- (length_le_split 4 (fastSwap32 vi)) at 2.
    rewrite load_store_bytes. apply le_split_fastSwap32.
  - rewrite to_jshort_id by apply fastSwap16_range.
    apply fastSwap16_involutive, Hs.
  - rewrite to_jint_id by apply fastSwap32_range.
    apply fastSwap32_involutive, Hi.
  - rewrite to_jlong_id by apply swap64_range.
    apply swap64_involutive, Hl.
Qed.

Lemma scalar_swap_roundtrip_witness :
  is_jshort (-2) /\ is_jint 0x01020304 /\ is_jlong (-3) /\
  OSMemory_peekShort (OSMemory_pokeShort (fun _ => Byte.x00) 6 (-2) true) 6 true = -2 /\
  OSMemory_peekInt (OSMemory_pokeInt (fun _ => Byte.x00) 6 0x01020304 true) 6 true
  = 0x01020304 /\
  OSMemory_peekLong ARM_LONG_ALIGNMENT_MASK
    (OSMemory_pokeLong ARM_LONG_ALIGNMENT_MASK (fun _ => Byte.x00) 6 (-3) true) 6 true
  = -3.
Proof.
  assert (Hs : is_jshort (-2)) by in_range.
  assert (Hi : is_jint 0x01020304) by in_range.
  assert (Hl : is_jlong (-3)) by in_range.
  repeat (split; [assumption |]).
  apply (scalar_swap_roundtrip ARM_LONG_ALIGNMENT_MASK (fun _ => Byte.x00) 6 6
           (-2) 0x01020304 (-3) Hs Hi Hl).
Defined.

(** C4.  For every 64-bit value [v], every address (aligned or not) and
    either swap flag, [pokeLong] followed by [peekLong] returns [v]; and the
    byte-by-byte path taken at a misaligned address cannot be told from the
    direct path: whatever the platform's alignment mask, the accessors
    write and read the same thing. *)
Theorem long_access_any_alignment (mask mask' : Z) (m : mem) (a v : Z) (swap : bool) :
  is_jlong v ->
  OSMemory_peekLong mask (OSMemory_pokeLong mask m a v swap) a swap = v
  /\ OSMemory_pokeLong mask m a v swap = OSMemory_pokeLong mask' m a v swap
  /\ OSMemory_peekLong mask m a swap = OSMemory_peekLong mask' m a swap.
Proof.
  intros Hv. rewrite !peekLong_load, !pokeLong_store, load_store_jlong.
  repeat split.
  destruct swap.
  - rewrite to_jlong_id by apply swap64_range. apply swap64_involutive, Hv.
  - apply to_jlong_id, Hv.
Qed.

Lemma long_access_any_alignment_witness :
  is_jlong 0x0102030405060708 /\
  Z.land 0x1003 ARM_LONG_ALIGNMENT_MASK <> 0 /\
  OSMemory_peekLong ARM_LONG_ALIGNMENT_MASK
    (OSMemory_pokeLong ARM_LONG_ALIGNMENT_MASK (fun _ => Byte.x00) 0x1003
       0x0102030405060708 false) 0x1003 false
  = 0x0102030405060708.
Proof.
  assert (Hv : is_jlong 0x0102030405060708) by in_range.
  split; [exact Hv |]. split; [discriminate |].
  apply (long_access_any_alignment ARM_LONG_ALIGNMENT_MASK X86_LONG_ALIGNMENT_MASK
           (fun _ => Byte.x00) 0x1003 0x0102030405060708 false Hv).
Defined.

(** C8.  For a buffer of 16-bit elements with an odd count, [swapShorts]
    (a 32-bit byte-reverse and an exchange of the halves for every pair,
    then a 16-bit swap of the last element) does exactly what swapping
    every element on its own does: the resulting memory is the same, the
    destination holds each source element byte-reversed, as many bytes as
    were read, and nothing outside the destination is touched. *)
Theorem swapShorts_odd_refines_each (m : mem) (dst src : Z) (count : nat) :
  Nat.odd count = true ->
  forward_safe dst src (2 * Z.of_nat count) ->
  swapShorts m dst src count = swapShorts_each m dst src count
  /\ load_bytes (swapShorts m dst src count) dst (count * 2)
     = swap_each 2 count (load_bytes m src (count * 2))
  /\ length (swap_each 2 count (load_bytes m src (count * 2)))
     = length (load_bytes m src (count * 2))
  /\ (forall x, x < dst \/ dst + 2 * Z.of_nat count <= x ->
                swapShorts m dst src count x = m x).
Proof.
  intros _ Hsafe.
  rewrite swapShorts_each_eq by exact Hsafe.
  rewrite swapShorts_each_blocks.
  repeat split.
  - apply copy_blocks_content; [apply rev_keeps_length | exact Hsafe].
  - unfold swap_each.
    rewrite length_map_blocks, length_load_bytes;
      [reflexivity | apply rev_keeps_length | apply length_load_bytes].
  - intros x Hx. apply copy_blocks_outside; [apply rev_keeps_length | exact Hx].
Qed.

Lemma swapShorts_odd_refines_each_witness :
  Nat.odd 3 = true /\ forward_safe 0x2000 0x1000 (2 * Z.of_nat 3) /\
  let m := store_bytes (fun _ => Byte.x00) 0x1000
             [Byte.x01; Byte.x02; Byte.x03; Byte.x04; Byte.x05; Byte.x06] in
  swapShorts m 0x2000 0x1000 3 = swapShorts_each m 0x2000 0x1000 3 /\
  load_bytes (swapShorts m 0x2000 0x1000 3) 0x2000 6
  = [Byte.x02; Byte.x01; Byte.x04; Byte.x03; Byte.x06; Byte.x05].
Proof.
  assert (Hodd : Nat.odd 3 = true) by reflexivity.
  assert (Hsafe : forward_safe 0x2000 0x1000 (2 * Z.of_nat 3)) by (right; cbv; discriminate).
  split; [exact Hodd |]. split; [exact Hsafe |]. cbv zeta.
  pose proof (swapShorts_odd_refines_each
                (store_bytes (fun _ => Byte.x00) 0x1000
                   [Byte.x01; Byte.x02; Byte.x03; Byte.x04; Byte.x05; Byte.x06])
                0x2000 0x1000 3 Hodd Hsafe) as (Heq & Hcontent & _).
  split; [exact Heq |].
  etransitivity; [exact Hcontent | reflexivity].
Defined.

(** C9.  Byte-order swapping is involutive.  Swapping a 16-, 32- or 64-bit
    scalar twice gives the scalar back; and for each swap-array routine and
    every element count, swapping a buffer [a] into [b] and [b] on into [c]
    leaves in [c] the original bytes of [a], so that swapping a buffer twice
    in place leaves the whole memory unchanged. *)
Theorem swap_involutive :
  (forall v, is_jshort v -> fastSwap16 (fastSwap16 v) = v)
  /\ (forall v, is_jint v -> fastSwap32 (fastSwap32 v) = v)
  /\ (forall v, is_jlong v -> swap64 (swap64 v) = v)
  /\ (forall m a b c count,
        forward_safe b a (2 * Z.of_nat count) -> forward_safe c b (2 * Z.of_nat count) ->
        load_bytes (swapShorts (swapShorts m b a count) c b count) c (count * 2)
        = load_bytes m a (count * 2))
  /\ (forall m a b c count,
        forward_safe b a (4 * Z.of_nat count) -> forward_safe c b (4 * Z.of_nat count) ->
        load_bytes (swapInts (swapInts m b a count) c b count) c (count * 4)
        = load_bytes m a (count * 4))
  /\ (forall m a b c count,
        forward_safe b a (8 * Z.of_nat count) -> forward_safe c b (8 * Z.of_nat count) ->
        load_bytes (swapLongs (swapLongs m b a count) c b count) c (count * 8)
        = load_bytes m a (count * 8))
  /\ (forall m a count x, swapShorts (swapShorts m a a count) a a count x = m x)
  /\ (forall m a count x, swapInts (swapInts m a a count) a a count x = m x)
  /\ (forall m a count x, swapLongs (swapLongs m a a count) a a count x = m x).
Proof.
  repeat split.
  - apply fastSwap16_involutive.
  - apply fastSwap32_involutive.
  - apply swap64_involutive.
  - intros m a b c count Hab Hbc.
    rewrite !swapShorts_each_eq, !swapShorts_each_blocks by assumption.
    apply (copy_blocks_twice 2); assumption.
  - intros m a b c count Hab Hbc. rewrite !swapInts_blocks.
    apply (copy_blocks_twice 4); assumption.
  - intros m a b c count Hab Hbc. rewrite !swapLongs_blocks.
    apply (copy_blocks_twice 8); assumption.
  - intros m a count x.
    rewrite !swapShorts_each_eq, !swapShorts_each_blocks by (left; lia).
    apply (copy_blocks_twice_in_place 2).
  - intros m a count x. rewrite !swapInts_blocks.
    apply (copy_blocks_twice_in_place 4).
  - intros m a count x. rewrite !swapLongs_blocks.
    apply (copy_blocks_twice_in_place 8).
Qed.

Lemma swap_involutive_witness :
  is_jint 0x01020304 /\ fastSwap32 (fastSwap32 0x01020304) = 0x01020304 /\
  forward_safe 0x2000 0x1000 (2 * Z.of_nat 3) /\
  forward_safe 0x1000 0x2000 (2 * Z.of_nat 3) /\
  let m := store_bytes (fun _ => Byte.x00) 0x1000
             [Byte.x01; Byte.x02; Byte.x03; Byte.x04; Byte.x05; Byte.x06] in
  load_bytes (swapShorts (swapShorts m 0x2000 0x1000 3) 0x1000 0x2000 3) 0x1000 (3 * 2)
  = load_bytes m 0x1000 (3 * 2).
Proof.
  assert (Hi : is_jint 0x01020304) by in_range.
  assert (Hab : forward_safe 0x2000 0x1000 (2 * Z.of_nat 3)) by (right; cbv; discriminate).
  assert (Hba : forward_safe 0x1000 0x2000 (2 * Z.of_nat 3)) by (left; cbv; discriminate).
  destruct swap_involutive as (_ & H32 & _ & Hshorts & _).
  split; [exact Hi |]. split; [exact (H32 _ Hi) |].
  split; [exact Hab |]. split; [exact Hba |].
  cbv zeta. apply Hshorts; assumption.
Defined.

(** C2.  A granted allocation of [N] bytes whose [calloc] succeeds (with
    the block at [p]) returns the address [a] just past an 8-byte header
    that holds [N]; the [N] payload bytes at [a] are zero, and the block is
    the [N + 8] bytes starting at [a - 8]. *)
Theorem malloc_header_and_zeroed_payload (st : state) (N p : Z) :
  0 <= N < 2 ^ 31 ->
  0 < p -> p + (N + sizeof_jlong) < 2 ^ 32 ->
  let a := fst (OSMemory_malloc true (Some p) N st) in
  let st' := snd (OSMemory_malloc true (Some p) N st) in
  cast a = p + sizeof_jlong
  /\ load_jlong (memory st') (cast a - sizeof_jlong) = N
  /\ (forall i, 0 <= i < N -> memory st' (cast a + i) = Byte.x00)
  /\ heap st' = (cast a - sizeof_jlong, N + sizeof_jlong) :: heap st
  /\ runtime st' = runtime st ++ [trackExternalAllocation N]
  /\ pending st' = pending st.
Proof.
  intros HN Hp Hend. cbv zeta.
  destruct (malloc_granted_block st N p HN Hp Hend) as (Hcast & Hheader & Hheap & Hrun).
  repeat split; try assumption.
  - intros i Hi. rewrite Hcast. apply malloc_granted_payload; assumption.
Qed.

Lemma malloc_header_and_zeroed_payload_witness :
  0 <= 16 < 2 ^ 31 /\ 0 < 0x1000 /\ 0x1000 + (16 + sizeof_jlong) < 2 ^ 32 /\
  fst (OSMemory_malloc true (Some 0x1000) 16 initial_state) = 0x1008 /\
  load_jlong (memory (snd (OSMemory_malloc true (Some 0x1000) 16 initial_state))) 0x1000
  = 16.
Proof.
  assert (HN : 0 <= 16 < 2 ^ 31) by (cbv; split; discriminate || reflexivity).
  assert (Hp : 0 < 0x1000) by reflexivity.
  assert (Hend : 0x1000 + (16 + sizeof_jlong) < 2 ^ 32) by reflexivity.
  repeat (split; [assumption |]).
  split; [reflexivity |].
  exact (proj1 (proj2 (malloc_header_and_zeroed_payload initial_state 16 0x1000
                         HN Hp Hend))).
Defined.

(** C7.  A failed allocation allocates nothing: when the accounting
    authority refuses the size, and when [calloc] fails after the size was
    admitted, [allocate] returns 0 with an [OutOfMemoryError] pending, and
    neither the memory nor the set of live blocks has changed. *)
Theorem malloc_failure_allocates_nothing (st : state) (size : Z) (calloc_ret : option Z) :
  (let r := OSMemory_malloc false calloc_ret size st in
   fst r = 0
   /\ pending (snd r) = Some OutOfMemoryError
   /\ memory (snd r) = memory st
   /\ heap (snd r) = heap st)
  /\
  (let r := OSMemory_malloc true None size st in
   fst r = 0
   /\ pending (snd r) = Some OutOfMemoryError
   /\ memory (snd r) = memory st
   /\ heap (snd r) = heap st).
Proof. repeat split. Qed.

(** C5.  [map] translates its mode by the fixed table: 0 (PRIVATE) to
    read+write, private; 1 (READ_ONLY) to read, shared; 2 (READ_WRITE) to
    read+write, shared.  Any other mode returns -1 with an [IOException]
    (of [EINVAL]) pending and an error-log line that names the mode, and
    [mmap] is not called.  When [mmap] fails, an [IOException] that carries
    [errno] is pending. *)
Theorem mmap_mode_table_and_errors
    (mmap_ret errno fd offset size mapMode : Z) (st : state) :
  let issued prot flags :=
    syscalls st ++ [Mmap 0 (to_size_t size) prot flags fd (to_off_t offset)] in
  let r := OSMemory_mmapImpl mmap_ret errno fd offset size mapMode st in
  (mapMode = 0 -> syscalls (snd r) = issued (Z.lor PROT_READ PROT_WRITE) MAP_PRIVATE)
  /\ (mapMode = 1 -> syscalls (snd r) = issued PROT_READ MAP_SHARED)
  /\ (mapMode = 2 -> syscalls (snd r) = issued (Z.lor PROT_READ PROT_WRITE) MAP_SHARED)
  /\ (mapMode <> 0 -> mapMode <> 1 -> mapMode <> 2 ->
      fst r = -1
      /\ pending (snd r) = Some (IOException EINVAL)
      /\ logcat (snd r) = logcat st ++ [mkLog ERROR "bad mapMode %i" mapMode]
      /\ syscalls (snd r) = syscalls st)
  /\ (mapMode = 0 \/ mapMode = 1 \/ mapMode = 2 ->
      (mmap_ret = MAP_FAILED ->
       pending (snd r) = Some (IOException errno) /\ fst r = -1)
      /\ (mmap_ret <> MAP_FAILED ->
          pending (snd r) = pending st /\ fst r = to_jint mmap_ret)).
Proof.
  cbv zeta. unfold OSMemory_mmapImpl.
  split; [| split; [| split; [| split]]].
  - intros ->. cbn [map_mode_flags]. destruct (_ =? _); reflexivity.
  - intros ->. cbn [map_mode_flags]. destruct (_ =? _); reflexivity.
  - intros ->. cbn [map_mode_flags]. destruct (_ =? _); reflexivity.
  - intros H0 H1 H2. rewrite map_mode_flags_other by assumption.
    repeat split.
  - intros Hmode.
    assert (exists prot flags, map_mode_flags mapMode = Some (prot, flags)) as (prot & flags & ->)
      by (destruct Hmode as [-> | [-> | ->]]; do 2 eexists; reflexivity).
    split.
    + intros ->. rewrite Z.eqb_refl. split; reflexivity.
    + intros Hok. destruct (Z.eqb_spec mmap_ret MAP_FAILED); [contradiction |].
      split; reflexivity.
Qed.

Lemma mmap_mode_table_and_errors_witness :
  3 <> 0 /\ 3 <> 1 /\ 3 <> 2 /\
  fst (OSMemory_mmapImpl 0x40000000 0 5 0 4096 3 initial_state) = -1 /\
  pending (snd (OSMemory_mmapImpl 0x40000000 0 5 0 4096 3 initial_state))
  = Some (IOException EINVAL) /\
  syscalls (snd (OSMemory_mmapImpl 0x40000000 0 5 0 4096 3 initial_state)) = [].
Proof.
  assert (H0 : 3 <> 0) by discriminate.
  assert (H1 : 3 <> 1) by discriminate.
  assert (H2 : 3 <> 2) by discriminate.
  repeat (split; [assumption |]).
  destruct (mmap_mode_table_and_errors 0x40000000 0 5 0 4096 3 initial_state)
    as (_ & _ & _ & Hbad & _).
  destruct (Hbad H0 H1 H2) as (Hret & Hexn & _ & Hsys).
  repeat split; assumption.
Defined.

(** C10.  With [swap = true] and an element size other than 2, 4 or 8,
    [unsafeArrayCopy] copies nothing: whatever the pinning calls answer,
    the memory (and with it the destination object) is unchanged and no
    exception is raised; when both arrays were pinned they are acquired and
    released around the skipped copy. *)
Theorem unsafeArrayCopy_swap_unknown_size
    (srcBytes dstBytes : option Z)
    (dstOffset byteCount srcOffset sizeofElement : Z) (st : state) :
  sizeofElement <> 2 -> sizeofElement <> 4 -> sizeofElement <> 8 ->
  let st' := OSMemory_unsafeArrayCopy srcBytes dstBytes dstOffset byteCount
               srcOffset sizeofElement true st in
  memory st' = memory st
  /\ pending st' = pending st
  /\ (forall s d, srcBytes = Some s -> dstBytes = Some d ->
        jni st' = jni st ++ [GetByteArrayElements; GetPrimitiveArrayCritical;
                             ReleasePrimitiveArrayCritical 0;
                             ReleaseByteArrayElements JNI_ABORT]).
Proof.
  intros H2 H4 H8. cbv zeta. unfold OSMemory_unsafeArrayCopy.
  destruct (Z.eqb_spec sizeofElement 2); [contradiction |].
  destruct (Z.eqb_spec sizeofElement 4); [contradiction |].
  destruct (Z.eqb_spec sizeofElement 8); [contradiction |].
  destruct srcBytes as [s |], dstBytes as [d |]; repeat split;
    try (intros ? ? ? ?; discriminate).
  intros s' d' _ _. cbn [jni call_jni set_memory].
  rewrite <- !app_assoc. reflexivity.
Qed.

Lemma unsafeArrayCopy_swap_unknown_size_witness :
  3 <> 2 /\ 3 <> 4 /\ 3 <> 8 /\
  memory (OSMemory_unsafeArrayCopy (Some 0x1000) (Some 0x2000) 0 6 0 3 true initial_state)
  = memory initial_state.
Proof.
  assert (H2 : 3 <> 2) by discriminate.
  assert (H4 : 3 <> 4) by discriminate.
  assert (H8 : 3 <> 8) by discriminate.
  repeat (split; [assumption |]).
  exact (proj1 (unsafeArrayCopy_swap_unknown_size (Some 0x1000) (Some 0x2000)
                  0 6 0 3 initial_state H2 H4 H8)).
Defined.

(** C3.  Let [a] be the address returned by a successful [allocate(N)].
    As long as the allocation lives (the client writes outside the hidden
    header and does not release [a]; the allocator hands out fresh blocks),
    the 8 bytes before [a] hold [N] and the block of [N + 8] bytes at
    [a - 8] is live; [release(a)] then reads that header, reports exactly
    [N], the size the authority admitted, and frees the block that starts
    at the header. *)
Theorem free_reports_admitted_size (mask : Z) (st0 st2 : state) (N p : Z) :
  0 <= N < 2 ^ 31 ->
  0 < p -> p + (N + sizeof_jlong) < 2 ^ 32 ->
  let a := fst (OSMemory_malloc true (Some p) N st0) in
  let st1 := snd (OSMemory_malloc true (Some p) N st0) in
  lifetime mask a st1 st2 ->
  runtime st1 = runtime st0 ++ [trackExternalAllocation N]
  /\ load_jlong (memory st2) (cast a - sizeof_jlong) = N
  /\ In (cast a - sizeof_jlong, N + sizeof_jlong) (heap st2)
  /\ runtime (OSMemory_free a st2) = runtime st2 ++ [trackExternalFree N]
  /\ (forall l, ~ In (cast a - sizeof_jlong, l) (heap (OSMemory_free a st2)))
  /\ memory (OSMemory_free a st2) = memory st2.
Proof.
  intros HN Hp Hend a st1 Hlife.
  destruct (malloc_granted_block st0 N p HN Hp Hend)
    as (Hcast & Hheader & Hheap & Hruntime).
  fold a in Hcast, Hheader, Hheap. fold st1 in Hheader, Hheap, Hruntime.
  assert (Hin : In (cast a - sizeof_jlong, N + sizeof_jlong) (heap st1))
    by (rewrite Hheap; left; reflexivity).
  destruct (lifetime_keeps_block mask a (N + sizeof_jlong) st1 st2) as [Hmem Hlive];
    [lia | exact Hin | exact Hlife |].
  assert (Hheader2 : load_jlong (memory st2) (cast a - sizeof_jlong) = N)
    by (rewrite <- Hheader; apply load_jlong_ext, Hmem).
  split; [exact Hruntime |]. split; [exact Hheader2 |].
  split; [apply Hlive, Hin |].
  split; [| split; [intros l; apply free_removes_block | reflexivity]].
  unfold OSMemory_free. cbn [runtime free set_heap call_runtime].
  unfold cast in Hheader2. rewrite Hheader2. reflexivity.
Qed.

Lemma free_reports_admitted_size_witness :
  let a := fst (OSMemory_malloc true (Some 0x1000) 16 initial_state) in
  let st1 := snd (OSMemory_malloc true (Some 0x1000) 16 initial_state) in
  let st2 := exec ARM_LONG_ALIGNMENT_MASK (PokeLong (a + 5) (-1) true)
               (exec ARM_LONG_ALIGNMENT_MASK (Malloc true (Some 0x2000) 4) st1) in
  0 <= 16 < 2 ^ 31 /\ 0 < 0x1000 /\ 0x1000 + (16 + sizeof_jlong) < 2 ^ 32 /\
  lifetime ARM_LONG_ALIGNMENT_MASK a st1 st2 /\
  runtime (OSMemory_free a st2)
  = [trackExternalAllocation 16; trackExternalAllocation 4; trackExternalFree 16].
Proof.
  cbv zeta.
  assert (HN : 0 <= 16 < 2 ^ 31) by (cbv; split; discriminate || reflexivity).
  assert (Hp : 0 < 0x1000) by reflexivity.
  assert (Hend : 0x1000 + (16 + sizeof_jlong) < 2 ^ 32) by reflexivity.
  assert (Hlife :
    lifetime ARM_LONG_ALIGNMENT_MASK
      (fst (OSMemory_malloc true (Some 0x1000) 16 initial_state))
      (snd (OSMemory_malloc true (Some 0x1000) 16 initial_state))
      (exec ARM_LONG_ALIGNMENT_MASK
         (PokeLong (fst (OSMemory_malloc true (Some 0x1000) 16 initial_state) + 5) (-1) true)
         (exec ARM_LONG_ALIGNMENT_MASK (Malloc true (Some 0x2000) 4)
            (snd (OSMemory_malloc true (Some 0x1000) 16 initial_state))))).
  { apply lifetime_call; [apply lifetime_call; [apply lifetime_begin |] |].
    - intros _ q Hq. injection Hq as <-.
      split; [cbv; split; discriminate || reflexivity |].
      split; [reflexivity |]. split; [reflexivity |].
      intros b l [Hb | []]. injection Hb as <- <-. right. cbv. discriminate.
    - right. cbv. discriminate. }
  repeat (split; [assumption |]).
  destruct (free_reports_admitted_size ARM_LONG_ALIGNMENT_MASK initial_state _ 16 0x1000
              HN Hp Hend Hlife) as (_ & _ & _ & Hfree & _).
  rewrite Hfree. reflexivity.
Defined.

(** C6.  [isResident] at an address in the upper half of the address
    space, which the [jint] parameter holds as a negative number.  For the
    two pages and one byte from [0x80000001] on, with page [0x80000] not
    resident and every other page resident, the signed remainder moves the
    start of the queried range up to [0x80001000] instead of down to
    [0x80000000], the length shrinks to 4097, only two pages are inspected,
    and the answer is [true] although a page of the range is not resident.
    For the single byte at [0x80000001] with every page resident, the
    length becomes negative and the answer is [false]. *)
Theorem isLoaded_high_address_misses_page :
  let resident := fun p => negb (p =? 0x80000) in
  cast (-2147483647) = 0x80000001
  /\ page_in_range 4096 (cast (-2147483647)) 8192 0x80000
  /\ resident 0x80000 = false
  /\ isLoaded_range 4096 (-2147483647) 8192 = (to_jint 0x80001000, 4097, 2)
  /\ OSMemory_isLoaded 4096 (kernel_mincore 4096 resident) (-2147483647) 8192 = true
  /\ isLoaded_range 4096 (-2147483647) 1 = (to_jint 0x80001000, -4094, 0)
  /\ OSMemory_isLoaded 4096 (kernel_mincore 4096 (fun _ => true)) (-2147483647) 1 = false.
Proof.
  cbv zeta. repeat split; try reflexivity; cbv; discriminate.
Qed.

(* ================================================================= *)
(** * Further properties of the code *)

(** ** Scalar access *)

Lemma load_store_jbyte m a v : load_jbyte (store_jbyte m a v) a = to_jbyte v.
Proof.
  unfold load_jbyte, store_jbyte. rewrite load_store.
  apply (signed_unsigned 8). lia.
Qed.

(** X1.  [pokeByte] followed by [peekByte] at the same address returns
    the byte that was written; a [peekByte] at any other address, and every
    other byte of memory, is unaffected by the poke. *)
Theorem pokeByte_peekByte (m : mem) (a b v : Z) :
  is_jbyte v ->
  cast b <> cast a ->
  OSMemory_peekByte (OSMemory_pokeByte m a v) a = v
  /\ OSMemory_peekByte (OSMemory_pokeByte m a v) b = OSMemory_peekByte m b
  /\ (forall x, x <> cast a -> OSMemory_pokeByte m a v x = m x).
Proof.
  intros Hv Hb. unfold OSMemory_peekByte, OSMemory_pokeByte.
  split; [| split].
  - rewrite load_store_jbyte. apply (signed_id 8); [lia | exact Hv].
  - unfold load_jbyte, load. do 2 f_equal.
    apply load_bytes_ext. intros x Hx.
    apply store_outside. simpl in Hx |- *. lia.
  - intros x Hx. apply store_outside. simpl. lia.
Qed.

Lemma pokeByte_peekByte_witness :
  is_jbyte (-128) /\ cast 0x1001 <> cast 0x1000 /\
  OSMemory_peekByte (OSMemory_pokeByte (fun _ => Byte.x00) 0x1000 (-128)) 0x1000 = -128.
Proof.
  assert (Hv : is_jbyte (-128)) by in_range.
  assert (Hb : cast 0x1001 <> cast 0x1000) by (cbv; discriminate).
  split; [exact Hv |]. split; [exact Hb |].
  exact (proj1 (pokeByte_peekByte (fun _ => Byte.x00) 0x1000 0x1001 (-128) Hv Hb)).
Defined.

(** X2.  How the swap flags of a poke and of the following peek combine,
    for short, int and long: when the flags agree the peek returns the value
    that was poked, and when they differ it returns that value with its
    bytes reversed. *)
Theorem peek_poke_swap_flags (mask : Z) (m : mem) (a vs vi vl : Z) (s1 s2 : bool) :
  is_jshort vs -> is_jint vi -> is_jlong vl ->
  OSMemory_peekShort (OSMemory_pokeShort m a vs s1) a s2
  = (if xorb s1 s2 then fastSwap16 vs else vs)
  /\ OSMemory_peekInt (OSMemory_pokeInt m a vi s1) a s2
     = (if xorb s1 s2 then fastSwap32 vi else vi)
  /\ OSMemory_peekLong mask (OSMemory_pokeLong mask m a vl s1) a s2
     = (if xorb s1 s2 then swap64 vl else vl).
Proof.
  intros Hs Hi Hl.
  unfold OSMemory_peekShort, OSMemory_pokeShort, OSMemory_peekInt, OSMemory_pokeInt.
  rewrite peekLong_load, pokeLong_store.
  rewrite load_store_jshort, load_store_jint, load_store_jlong.
  destruct s1, s2; cbn [xorb];
    rewrite ?(to_jshort_id (fastSwap16 vs)), ?(to_jint_id (fastSwap32 vi)),
      ?(to_jlong_id (swap64 vl)), ?(to_jshort_id vs), ?(to_jint_id vi), ?(to_jlong_id vl),
      ?fastSwap16_involutive, ?fastSwap32_involutive, ?swap64_involutive;
    auto using fastSwap16_range, fastSwap32_range, swap64_range.
Qed.

Lemma peek_poke_swap_flags_witness :
  is_jshort 0x0102 /\ is_jint 0x01020304 /\ is_jlong 0x0102030405060708 /\
  OSMemory_peekShort (OSMemory_pokeShort (fun _ => Byte.x00) 8 0x0102 false) 8 true = 0x0201 /\
  OSMemory_peekInt (OSMemory_pokeInt (fun _ => Byte.x00) 8 0x01020304 true) 8 false
  = 0x04030201 /\
  OSMemory_peekLong 3 (OSMemory_pokeLong 3 (fun _ => Byte.x00) 9 0x0102030405060708 false) 9 true
  = 0x0807060504030201.
Proof.
  assert (Hs : is_jshort 0x0102) by in_range.
  assert (Hi : is_jint 0x01020304) by in_range.
  assert (Hl : is_jlong 0x0102030405060708) by in_range.
  repeat (split; [assumption |]).
  pose proof (peek_poke_swap_flags 3 (fun _ => Byte.x00) 8 0x0102 0x01020304
                0x0102030405060708 false true Hs Hi Hl) as (H16 & _ & _).
  pose proof (peek_poke_swap_flags 3 (fun _ => Byte.x00) 8 0x0102 0x01020304
                0x0102030405060708 true false Hs Hi Hl) as (_ & H32 & _).
  pose proof (peek_poke_swap_flags 3 (fun _ => Byte.x00) 9 0x0102 0x01020304
                0x0102030405060708 false true Hs Hi Hl) as (_ & _ & H64).
  split; [exact H16 |]. split; [exact H32 | exact H64].
Defined.

(** X3.  A poke of a short, an int or a long writes the 2, 4 or 8 bytes
    at its address and nothing else, whatever the swap flag and, for a
    long, whatever path the alignment selects. *)
Theorem poke_writes_only_its_bytes (mask : Z) (m : mem) (a v x : Z) (swap : bool) :
  (x < cast a \/ cast a + 2 <= x -> OSMemory_pokeShort m a v swap x = m x)
  /\ (x < cast a \/ cast a + 4 <= x -> OSMemory_pokeInt m a v swap x = m x)
  /\ (x < cast a \/ cast a + 8 <= x -> OSMemory_pokeLong mask m a v swap x = m x).
Proof.
  rewrite pokeLong_store.
  repeat split; intros Hx; apply store_outside; simpl; lia.
Qed.

Lemma poke_writes_only_its_bytes_witness :
  (0x1008 < cast 0x1000 \/ cast 0x1000 + 8 <= 0x1008) /\
  OSMemory_pokeLong 3 (fun _ => Byte.x2a) 0x1000 (-1) true 0x1008 = Byte.x2a.
Proof.
  assert (Hx : 0x1008 < cast 0x1000 \/ cast 0x1000 + 8 <= 0x1008)
    by (right; cbv; discriminate).
  split; [exact Hx |].
  exact (proj2 (proj2 (poke_writes_only_its_bytes 3 (fun _ => Byte.x2a) 0x1000 (-1)
                         0x1008 true)) Hx).
Defined.

(** ** The swap-array routines, element by element *)

(** Block [i] of the destination is [f] of block [i] of the source. *)
Lemma copy_blocks_block k f n :
  (forall bs, length bs = k -> length (f bs) = k) ->
  forall m dst src i,
    forward_safe dst src (Z.of_nat k * Z.of_nat n) ->
    (i < n)%nat ->
    load_bytes (copy_blocks k f m dst src n) (dst + Z.of_nat k * Z.of_nat i) k
    = f (load_bytes m (src + Z.of_nat k * Z.of_nat i) k).
Proof.
  intros Hlen.
  induction n as [| n IH]; intros m dst src i Hsafe Hi; [lia |].
  cbn [copy_blocks].
  destruct i as [| i].
  - rewrite Z.mul_0_r, !Z.add_0_r.
    rewrite <- (load_store_bytes (f (load_bytes m src k)) m dst) at 2.
    rewrite Hlen by apply length_load_bytes.
    apply load_bytes_ext. intros x Hx.
    apply copy_blocks_outside; [exact Hlen | lia].
  - replace (dst + Z.of_nat k * Z.of_nat (S i))
      with (dst + Z.of_nat k + Z.of_nat k * Z.of_nat i) by lia.
    replace (src + Z.of_nat k * Z.of_nat (S i))
      with (src + Z.of_nat k + Z.of_nat k * Z.of_nat i) by lia.
    rewrite IH by (unfold forward_safe in *; lia).
    f_equal. apply load_bytes_ext. intros x Hx.
    apply store_bytes_outside.
    rewrite Hlen by apply length_load_bytes.
    unfold forward_safe in Hsafe. nia.
Qed.

(** A swap of a loaded value, in terms of the bytes it was loaded from. *)
Lemma fastSwap16_load m a :
  fastSwap16 (load_jshort m a) = to_jshort (le_combine (rev (load_bytes m a 2))).
Proof.
  apply (le_split_signed_inj 2); [lia | apply fastSwap16_range | apply (signed_range 16); lia |].
  rewrite le_split_fastSwap16. unfold load_jshort, to_jshort.
  rewrite (le_split_load_signed 2), (le_split_signed 2) by lia.
  symmetry. apply split_le_combine'. rewrite length_rev. apply length_load_bytes.
Qed.

Lemma fastSwap32_load m a :
  fastSwap32 (load_jint m a) = to_jint (le_combine (rev (load_bytes m a 4))).
Proof.
  apply (le_split_signed_inj 4); [lia | apply fastSwap32_range | apply (signed_range 32); lia |].
  rewrite le_split_fastSwap32. unfold load_jint, to_jint.
  rewrite (le_split_load_signed 4), (le_split_signed 4) by lia.
  symmetry. apply split_le_combine'. rewrite length_rev. apply length_load_bytes.
Qed.

Lemma swap64_load m a :
  swap64 (load_jlong m a) = to_jlong (le_combine (rev (load_bytes m a 8))).
Proof.
  apply (le_split_signed_inj 8); [lia | apply swap64_range | apply (signed_range 64); lia |].
  rewrite le_split_swap64. unfold load_jlong, to_jlong.
  rewrite (le_split_load_signed 8), (le_split_signed 8) by lia.
  symmetry. apply split_le_combine'. rewrite length_rev. apply length_load_bytes.
Qed.

(** X4.  What the swap-array routines compute, element by element: for a
    forward-safe pair of buffers, element [i] of the destination is element
    [i] of the source with its bytes reversed.  For [swapLongs], which
    works on 32-bit halves, that is the 64-bit byte reversal of the element;
    for [swapShorts], which works on pairs, it holds for every count, even
    or odd. *)
Theorem swap_arrays_elementwise (m : mem) (dst src : Z) (count i : nat) :
  (i < count)%nat ->
  (forward_safe dst src (2 * Z.of_nat count) ->
   load_jshort (swapShorts m dst src count) (dst + 2 * Z.of_nat i)
   = fastSwap16 (load_jshort m (src + 2 * Z.of_nat i)))
  /\ (forward_safe dst src (4 * Z.of_nat count) ->
      load_jint (swapInts m dst src count) (dst + 4 * Z.of_nat i)
      = fastSwap32 (load_jint m (src + 4 * Z.of_nat i)))
  /\ (forward_safe dst src (8 * Z.of_nat count) ->
      load_jlong (swapLongs m dst src count) (dst + 8 * Z.of_nat i)
      = swap64 (load_jlong m (src + 8 * Z.of_nat i))).
Proof.
  intros Hi. split; [| split]; intros Hsafe.
  - rewrite swapShorts_each_eq, swapShorts_each_blocks by exact Hsafe.
    rewrite fastSwap16_load. unfold load_jshort at 1. unfold load.
    rewrite (copy_blocks_block 2) by (apply rev_keeps_length || assumption).
    reflexivity.
  - rewrite swapInts_blocks, fastSwap32_load. unfold load_jint at 1. unfold load.
    rewrite (copy_blocks_block 4) by (apply rev_keeps_length || assumption).
    reflexivity.
  - rewrite swapLongs_blocks, swap64_load. unfold load_jlong at 1. unfold load.
    rewrite (copy_blocks_block 8) by (apply rev_keeps_length || assumption).
    reflexivity.
Qed.

Lemma swap_arrays_elementwise_witness :
  (1 < 2)%nat /\ forward_safe 0x1000 0x1000 (8 * Z.of_nat 2) /\
  let m := store_jlong (fun _ => Byte.x00) 0x1008 0x0102030405060708 in
  load_jlong (swapLongs m 0x1000 0x1000 2) (0x1000 + 8 * Z.of_nat 1) = 0x0807060504030201.
Proof.
  assert (Hi : (1 < 2)%nat) by (apply Nat.lt_succ_diag_r).
  assert (Hsafe : forward_safe 0x1000 0x1000 (8 * Z.of_nat 2)) by (left; apply Z.le_refl).
  split; [exact Hi |]. split; [exact Hsafe |]. cbv zeta.
  rewrite (proj2 (proj2 (swap_arrays_elementwise
                           (store_jlong (fun _ => Byte.x00) 0x1008 0x0102030405060708)
                           0x1000 0x1000 2 1 Hi)) Hsafe).
  reflexivity.
Defined.

Lemma swapShorts_words_outside n : forall m dst src x,
  x < dst \/ dst + 4 * Z.of_nat n <= x ->
  fst (fst (swapShorts_words n m dst src)) x = m x
  /\ snd (fst (swapShorts_words n m dst src)) = dst + 4 * Z.of_nat n
  /\ snd (swapShorts_words n m dst src) = src + 4 * Z.of_nat n.
Proof.
  induction n as [| n IH]; intros m dst src x Hx.
  - cbn. rewrite !Z.add_0_r. auto.
  - cbn [swapShorts_words]. cbv zeta.
    destruct (IH (store_jint m dst
                    (to_jint (Z.lor (Z.shiftl (fastSwap32 (load_jint m src)) 16)
                                    (Z.land (Z.shiftr (fastSwap32 (load_jint m src)) 16) 0xffff))))
                 (dst + 4) (src + 4) x ltac:(lia)) as (Hm & Hd & Hs).
    rewrite Hm, Hd, Hs. repeat split; try lia.
    apply store_outside. simpl. lia.
Qed.

Lemma swapShorts_outside m dst src count x :
  x < dst \/ dst + 2 * Z.of_nat count <= x -> swapShorts m dst src count x = m x.
Proof.
  intros Hx. unfold swapShorts.
  pose proof (Nat.div_mod_eq count 2) as Hdm.
  pose proof (Nat.mod_upper_bound count 2 ltac:(lia)) as Hlt.
  destruct (swapShorts_words_outside (count / 2) m dst src x ltac:(lia))
    as (Hm & Hd & Hs).
  destruct (swapShorts_words (count / 2) m dst src) as [[m1 dst1] src1].
  cbn [fst snd] in Hm, Hd, Hs. subst dst1 src1.
  destruct (Nat.eqb_spec (count mod 2) 0); cbn [negb]; [exact Hm |].
  unfold store_jshort.
  rewrite store_outside by (change (Z.of_nat 2) with 2; lia). exact Hm.
Qed.

(** X5.  No swap-array routine writes outside its destination: the bytes
    below [dst] and from [dst + width * count] on are unchanged, wherever
    the source lies and whatever the count (in particular nothing at all is
    written for a count of 0). *)
Theorem swap_arrays_write_only_destination (m : mem) (dst src x : Z) (count : nat) :
  (x < dst \/ dst + 2 * Z.of_nat count <= x -> swapShorts m dst src count x = m x)
  /\ (x < dst \/ dst + 4 * Z.of_nat count <= x -> swapInts m dst src count x = m x)
  /\ (x < dst \/ dst + 8 * Z.of_nat count <= x -> swapLongs m dst src count x = m x).
Proof.
  split; [| split]; intros Hx.
  - apply swapShorts_outside. exact Hx.
  - rewrite swapInts_blocks.
    apply copy_blocks_outside; [apply rev_keeps_length | change (Z.of_nat 4) with 4; lia].
  - rewrite swapLongs_blocks.
    apply copy_blocks_outside; [apply rev_keeps_length | change (Z.of_nat 8) with 8; lia].
Qed.

Lemma swap_arrays_write_only_destination_witness :
  (0x1006 < 0x1000 \/ 0x1000 + 2 * Z.of_nat 3 <= 0x1006) /\
  swapShorts (fun _ => Byte.x2a) 0x1000 0x1002 3 0x1006 = Byte.x2a.
Proof.
  assert (Hx : 0x1006 < 0x1000 \/ 0x1000 + 2 * Z.of_nat 3 <= 0x1006)
    by (right; cbv; discriminate).
  split; [exact Hx |].
  exact (proj1 (swap_arrays_write_only_destination (fun _ => Byte.x2a)
                  0x1000 0x1002 0x1006 3) Hx).
Defined.

(** ** Bulk transfers *)

(** Each swap-array routine, as seen from outside: under [forward_safe] the
    destination receives the source with every element byte-reversed, and
    nothing outside the destination changes. *)
Lemma swap_routine_content w F m dst src n :
  In (w, F) swap_routines ->
  forward_safe dst src (Z.of_nat w * Z.of_nat n) ->
  load_bytes (F m dst src n) dst (n * w) = swap_each w n (load_bytes m src (n * w)).
Proof.
  intros Hin Hsafe. unfold swap_each.
  destruct Hin as [E | [E | [E | []]]]; injection E as <- <-.
  - rewrite swapShorts_each_eq, swapShorts_each_blocks by exact Hsafe.
    apply copy_blocks_content; [apply rev_keeps_length | exact Hsafe].
  - rewrite swapInts_blocks.
    apply copy_blocks_content; [apply rev_keeps_length | exact Hsafe].
  - rewrite swapLongs_blocks.
    apply copy_blocks_content; [apply rev_keeps_length | exact Hsafe].
Qed.


Lemma swap_routine_outside w F m dst src n x :
  In (w, F) swap_routines ->
  x < dst \/ dst + Z.of_nat w * Z.of_nat n <= x ->
  F m dst src n x = m x.
Proof.
  intros Hin Hx.
  destruct Hin as [E | [E | [E | []]]]; injection E as <- <-.
  - apply swapShorts_outside. exact Hx.
  - rewrite swapInts_blocks. apply copy_blocks_outside; [apply rev_keeps_length | exact Hx].
  - rewrite swapLongs_blocks. apply copy_blocks_outside; [apply rev_keeps_length | exact Hx].
Qed.

Lemma to_size_t_count count : 0 <= count < 2 ^ 31 -> to_size_t count = count.
Proof. intros H. apply to_size_t_small. change (2 ^ 32) with (2 * 2 ^ 31). lia. Qed.

Lemma region_inside_in_bounds a offset count :
  in_bounds a offset count -> region_inside a offset count = true.
Proof.
  intros (Ho & Hc & Hlen). unfold region_inside.
  destruct (Z.ltb_spec offset 0); [lia |].
  destruct (Z.ltb_spec count 0); [lia |].
  destruct (Z.ltb_spec (array_length a) (offset + count)); [lia | reflexivity].
Qed.

Lemma load_store_bytes_loaded m m' d s n :
  load_bytes (store_bytes m d (load_bytes m' s n)) d n = load_bytes m' s n.
Proof.
  pose proof (load_store_bytes (load_bytes m' s n) m d) as H.
  rewrite length_load_bytes in H. exact H.
Qed.

Lemma store_loaded_outside m m' d s n x :
  x < d \/ d + Z.of_nat n <= x -> store_bytes m d (load_bytes m' s n) x = m x.
Proof.
  intros Hx. apply store_bytes_outside. rewrite length_load_bytes. exact Hx.
Qed.

(** X6.  A swapped poke of an array region is the plain region copy with
    every element byte-reversed, done in one pass: for each element width
    and its routine (short/char, int/float, long/double), an in-bounds
    region and a forward-safe destination, both [POKER] paths succeed, the
    unswapped one leaves the region's bytes at the destination, the swapped
    one leaves the same elements byte-reversed, and neither writes outside
    the destination. *)
Theorem poke_array_swapped_is_copy_swapped
    (w : nat) (F : mem -> Z -> Z -> nat -> mem)
    (m : mem) (dstAddress : Z) (src : jarray) (srcOffset count : Z) :
  In (w, F) swap_routines ->
  in_bounds src srcOffset count ->
  forward_safe (cast dstAddress) (storage src + Z.of_nat w * srcOffset)
               (Z.of_nat w * count) ->
  let n := Z.to_nat count in
  exists m_copy m_swap,
    POKER w F (Some (storage src)) m dstAddress src srcOffset count false
    = Transferred m_copy
    /\ POKER w F (Some (storage src)) m dstAddress src srcOffset count true
       = Transferred m_swap
    /\ load_bytes m_copy (cast dstAddress) (n * w)
       = load_bytes m (storage src + Z.of_nat w * srcOffset) (n * w)
    /\ load_bytes m_swap (cast dstAddress) (n * w)
       = swap_each w n (load_bytes m_copy (cast dstAddress) (n * w))
    /\ (forall x, x < cast dstAddress \/ cast dstAddress + Z.of_nat w * count <= x ->
                  m_copy x = m x /\ m_swap x = m x).
Proof.
  intros Hin Hbounds Hsafe n.
  pose proof Hbounds as (Ho & Hc & Hlen).
  unfold POKER, GetArrayRegion.
  rewrite (region_inside_in_bounds _ _ _ Hbounds), (to_size_t_count count Hc).
  fold n.
  assert (Hn : Z.of_nat n = count) by (apply Z2Nat.id; lia).
  do 2 eexists. split; [reflexivity |]. split; [reflexivity |].
  split; [apply load_store_bytes_loaded |].
  split.
  - rewrite load_store_bytes_loaded.
    apply swap_routine_content; [exact Hin | rewrite Hn; exact Hsafe].
  - intros x Hx. split.
    + apply store_loaded_outside. nia.
    + apply (swap_routine_outside w F); [exact Hin | rewrite Hn; exact Hx].
Qed.

Lemma poke_array_swapped_is_copy_swapped_witness :
  let m := store_bytes (fun _ => Byte.x00) 0x3000
             [Byte.x01; Byte.x02; Byte.x03; Byte.x04; Byte.x05; Byte.x06;
              Byte.x07; Byte.x08] in
  let src := mkArray 0x3000 2 in
  In (4%nat, swapInts) swap_routines /\ in_bounds src 1 1 /\
  forward_safe (cast 0x1000) (storage src + Z.of_nat 4 * 1) (Z.of_nat 4 * 1) /\
  exists m_swap,
    OSMemory_pokeIntArray (Some 0x3000) m 0x1000 src 1 1 true = Transferred m_swap
    /\ load_bytes m_swap (cast 0x1000) 4 = [Byte.x08; Byte.x07; Byte.x06; Byte.x05].
Proof.
  cbv zeta.
  assert (Hin : In (4%nat, swapInts) swap_routines) by (right; left; reflexivity).
  assert (Hb : in_bounds (mkArray 0x3000 2) 1 1)
    by (repeat split; cbv; discriminate).
  assert (Hsafe : forward_safe (cast 0x1000) (storage (mkArray 0x3000 2) + Z.of_nat 4 * 1)
                    (Z.of_nat 4 * 1)) by (left; cbv; discriminate).
  split; [exact Hin |]. split; [exact Hb |]. split; [exact Hsafe |].
  destruct (poke_array_swapped_is_copy_swapped 4 swapInts
              (store_bytes (fun _ => Byte.x00) 0x3000
                 [Byte.x01; Byte.x02; Byte.x03; Byte.x04; Byte.x05; Byte.x06;
                  Byte.x07; Byte.x08])
              0x1000 (mkArray 0x3000 2) 1 1 Hin Hb Hsafe)
    as (m_copy & m_swap & _ & Hswap & Hcopy & Hswapped & _).
  exists m_swap. split; [exact Hswap |].
  etransitivity; [exact Hswapped |].
  etransitivity; [apply f_equal; exact Hcopy | reflexivity].
Defined.



(** X8.  Byte arrays: [pokeByteArray] of an in-bounds region followed by
    [peekByteArray] into an in-bounds region of the same length copies the
    bytes of the first region into the second, wherever the native buffer
    lies; a region that is not inside its array raises
    [ArrayIndexOutOfBoundsException] instead of moving any byte. *)
Theorem byte_array_round_trip
    (m : mem) (address : Z) (a b : jarray) (offA offB count : Z) :
  in_bounds a offA count ->
  in_bounds b offB count ->
  (exists m1 m2,
     OSMemory_pokeByteArray m address a offA count = Transferred m1
     /\ OSMemory_peekByteArray m1 address b offB count = Transferred m2
     /\ load_bytes m2 (storage b + offB) (Z.to_nat count)
        = load_bytes m (storage a + offA) (Z.to_nat count))
  /\ (forall off, off < 0 \/ array_length a < off + count ->
        OSMemory_pokeByteArray m address a off count = ArrayIndexOutOfBounds
        /\ OSMemory_peekByteArray m address a off count = ArrayIndexOutOfBounds).
Proof.
  intros Ha Hb. split.
  - unfold OSMemory_pokeByteArray, OSMemory_peekByteArray, GetArrayRegion, SetArrayRegion.
    rewrite (region_inside_in_bounds _ _ _ Ha), (region_inside_in_bounds _ _ _ Hb).
    do 2 eexists. split; [reflexivity |]. split; [reflexivity |].
    rewrite Nat.mul_1_r. change (Z.of_nat 1) with 1. rewrite !Z.mul_1_l.
    rewrite load_store_bytes_loaded. apply load_store_bytes_loaded.
  - intros off Hoff.
    unfold OSMemory_pokeByteArray, OSMemory_peekByteArray, GetArrayRegion, SetArrayRegion,
      region_inside.
    destruct (Z.ltb_spec off 0) as [Hneg | Hnn]; [split; reflexivity |].
    destruct (Z.ltb_spec (array_length a) (off + count)) as [Hbig | Hfit]; [| lia].
    rewrite Bool.orb_true_r. split; reflexivity.
Qed.

Lemma byte_array_round_trip_witness :
  let m := store_bytes (fun _ => Byte.x00) 0x3000 [Byte.x01; Byte.x02; Byte.x03] in
  let a := mkArray 0x3000 3 in
  let b := mkArray 0x4000 4 in
  in_bounds a 1 2 /\ in_bounds b 2 2 /\
  exists m1 m2,
    OSMemory_pokeByteArray m 0x1000 a 1 2 = Transferred m1
    /\ OSMemory_peekByteArray m1 0x1000 b 2 2 = Transferred m2
    /\ load_bytes m2 (0x4000 + 2) 2 = [Byte.x02; Byte.x03].
Proof.
  cbv zeta.
  assert (Ha : in_bounds (mkArray 0x3000 3) 1 2) by (repeat split; cbv; discriminate).
  assert (Hb : in_bounds (mkArray 0x4000 4) 2 2) by (repeat split; cbv; discriminate).
  split; [exact Ha |]. split; [exact Hb |].
  destruct (proj1 (byte_array_round_trip
                     (store_bytes (fun _ => Byte.x00) 0x3000 [Byte.x01; Byte.x02; Byte.x03])
                     0x1000 (mkArray 0x3000 3) (mkArray 0x4000 4) 1 2 2 Ha Hb))
    as (m1 & m2 & H1 & H2 & Hbytes).
  exists m1, m2. split; [exact H1 |]. split; [exact H2 |].
  etransitivity; [exact Hbytes | reflexivity].
Defined.

(** ** Unsafe array copy *)

(** X9.  [unsafeArrayCopy] without swap moves [byteCount] bytes from
    [srcOffset] elements (of [sizeofElement] bytes each) into the source
    array to [dstOffset] bytes into the destination object: the offsets are
    in different units.  The copy is overlap-safe, writes nothing outside
    the destination range and raises nothing. *)
Theorem unsafeArrayCopy_plain_copy
    (s d dstOffset byteCount srcOffset sizeofElement : Z) (st : state) :
  0 <= byteCount < 2 ^ 31 ->
  is_jint (srcOffset * sizeofElement) ->
  let st' := OSMemory_unsafeArrayCopy (Some s) (Some d) dstOffset byteCount
               srcOffset sizeofElement false st in
  load_bytes (memory st') (d + dstOffset) (Z.to_nat byteCount)
  = load_bytes (memory st) (s + srcOffset * sizeofElement) (Z.to_nat byteCount)
  /\ (forall x, x < d + dstOffset \/ d + dstOffset + byteCount <= x ->
                memory st' x = memory st x)
  /\ pending st' = pending st.
Proof.
  intros Hc Hprod. cbv zeta.
  unfold OSMemory_unsafeArrayCopy, memmove.
  cbn [memory set_memory call_jni pending].
  rewrite (to_size_t_count byteCount Hc), (to_jint_id _ Hprod).
  split; [apply load_store_bytes_loaded |].
  split; [| reflexivity].
  intros x Hx. apply store_loaded_outside. rewrite Z2Nat.id by lia. exact Hx.
Qed.

Lemma unsafeArrayCopy_plain_copy_witness :
  let st := set_memory (store_bytes (fun _ => Byte.x00) 0x3000
                          [Byte.x01; Byte.x02; Byte.x03; Byte.x04; Byte.x05; Byte.x06])
              initial_state in
  0 <= 2 < 2 ^ 31 /\ is_jint (1 * 4) /\
  load_bytes (memory (OSMemory_unsafeArrayCopy (Some 0x3000) (Some 0x4000) 1 2 1 4 false st))
             (0x4000 + 1) 2
  = [Byte.x05; Byte.x06].
Proof.
  cbv zeta.
  assert (Hc : 0 <= 2 < 2 ^ 31) by (cbv; split; discriminate || reflexivity).
  assert (Hp : is_jint (1 * 4)) by in_range.
  split; [exact Hc |]. split; [exact Hp |].
  etransitivity;
    [exact (proj1 (unsafeArrayCopy_plain_copy 0x3000 0x4000 1 2 1 4 _ Hc Hp))
    | reflexivity].
Defined.



(** X11.  When a pinning call of [unsafeArrayCopy] fails, nothing is
    copied and nothing is raised, whatever the other arguments; a source
    array that was pinned is released again (with [JNI_ABORT]) before the
    return, and one that was not is not released. *)
Theorem unsafeArrayCopy_pin_failure
    (srcBytes dstBytes : option Z)
    (dstOffset byteCount srcOffset sizeofElement : Z) (swap : bool) (st : state) :
  srcBytes = None \/ dstBytes = None ->
  let st' := OSMemory_unsafeArrayCopy srcBytes dstBytes dstOffset byteCount
               srcOffset sizeofElement swap st in
  memory st' = memory st
  /\ pending st' = pending st
  /\ (srcBytes = None -> jni st' = jni st ++ [GetByteArrayElements])
  /\ (srcBytes <> None ->
      jni st' = jni st ++ [GetByteArrayElements; GetPrimitiveArrayCritical;
                           ReleaseByteArrayElements JNI_ABORT]).
Proof.
  intros Hfail. cbv zeta. unfold OSMemory_unsafeArrayCopy.
  destruct srcBytes as [s |].
  - destruct Hfail as [Hs | ->]; [discriminate Hs |].
    repeat split; [discriminate |].
    intros _. cbn [jni call_jni]. rewrite <- !app_assoc. reflexivity.
  - repeat split. intros Hs. contradiction.
Qed.

Lemma unsafeArrayCopy_pin_failure_witness :
  (Some 0x3000 = None \/ @None Z = None) /\
  jni (OSMemory_unsafeArrayCopy (Some 0x3000) None 0 8 0 4 true initial_state)
  = [GetByteArrayElements; GetPrimitiveArrayCritical; ReleaseByteArrayElements JNI_ABORT].
Proof.
  assert (Hfail : Some 0x3000 = None \/ @None Z = None) by (right; reflexivity).
  split; [exact Hfail |].
  destruct (unsafeArrayCopy_pin_failure (Some 0x3000) None 0 8 0 4 true initial_state Hfail)
    as (_ & _ & _ & Hrel).
  apply Hrel. discriminate.
Defined.

(** ** Tracked allocation, continued *)

Lemma filter_no_base (h : list (Z * Z)) p :
  (forall l, ~ In (p, l) h) -> filter (fun b => negb (fst b =? p)) h = h.
Proof.
  induction h as [| [b l] h IH]; intros Hno; [reflexivity |].
  cbn [filter fst].
  destruct (Z.eqb_spec b p) as [-> | Hne].
  - exfalso. apply (Hno l). left. reflexivity.
  - cbn [negb]. f_equal. apply IH. intros l' Hin. apply (Hno l'). right. exact Hin.
Qed.

(** X12.  [allocate] followed directly by [release] of the returned
    address leaves the set of live blocks as it was, and tells the
    accounting authority of the allocation and then of a free of the very
    same size. *)
Theorem malloc_then_free_restores (st : state) (N p : Z) :
  0 <= N < 2 ^ 31 ->
  0 < p -> p + (N + sizeof_jlong) < 2 ^ 32 ->
  (forall l, ~ In (p, l) (heap st)) ->
  let a := fst (OSMemory_malloc true (Some p) N st) in
  let st1 := snd (OSMemory_malloc true (Some p) N st) in
  let st2 := OSMemory_free a st1 in
  heap st2 = heap st
  /\ runtime st2 = runtime st ++ [trackExternalAllocation N; trackExternalFree N]
  /\ pending st2 = pending st.
Proof.
  intros HN Hp Hend Hno a st1 st2.
  destruct (malloc_granted_block st N p HN Hp Hend) as (Hcast & Hheader & Hheap & Hrun).
  fold a in Hcast, Hheader, Hheap. fold st1 in Hheader, Hheap, Hrun.
  assert (Hbase : cast a - sizeof_jlong = p) by lia.
  unfold st2, OSMemory_free. cbn [heap runtime pending free set_heap call_runtime].
  unfold cast in Hheader, Hheap, Hbase. rewrite Hheader, Hheap, Hrun, Hbase.
  cbn [filter fst]. rewrite Z.eqb_refl. cbn [negb].
  rewrite filter_no_base by exact Hno.
  rewrite <- app_assoc.
  repeat split.
Qed.

Lemma malloc_then_free_restores_witness :
  0 <= 16 < 2 ^ 31 /\ 0 < 0x1000 /\ 0x1000 + (16 + sizeof_jlong) < 2 ^ 32 /\
  (forall l, ~ In (0x1000, l) (heap initial_state)) /\
  runtime (OSMemory_free (fst (OSMemory_malloc true (Some 0x1000) 16 initial_state))
             (snd (OSMemory_malloc true (Some 0x1000) 16 initial_state)))
  = [trackExternalAllocation 16; trackExternalFree 16].
Proof.
  assert (HN : 0 <= 16 < 2 ^ 31) by (cbv; split; discriminate || reflexivity).
  assert (Hp : 0 < 0x1000) by reflexivity.
  assert (Hend : 0x1000 + (16 + sizeof_jlong) < 2 ^ 32) by reflexivity.
  assert (Hno : forall l, ~ In (0x1000, l) (heap initial_state)) by (intros l []).
  repeat (split; [assumption |]).
  exact (proj1 (proj2 (malloc_then_free_restores initial_state 16 0x1000 HN Hp Hend Hno))).
Defined.

(** X13.  A granted allocation changes memory only inside the block it
    was given: every byte outside [[p, p + N + 8)] keeps its value, every
    block that was live stays live, and, the allocator's block being fresh,
    the contents of the blocks already live (headers and payloads) are
    untouched. *)
Theorem malloc_touches_only_its_block (st : state) (N p : Z) :
  0 <= N < 2 ^ 31 ->
  fresh_block st p (N + sizeof_jlong) ->
  let st' := snd (OSMemory_malloc true (Some p) N st) in
  (forall x, x < p \/ p + (N + sizeof_jlong) <= x -> memory st' x = memory st x)
  /\ (forall b l, In (b, l) (heap st) -> In (b, l) (heap st'))
  /\ (forall b l x, In (b, l) (heap st) -> b <= x < b + l -> memory st' x = memory st x).
Proof.
  intros HN (Hp & Hend & Hdisj). cbv zeta.
  rewrite malloc_granted by exact HN. cbn [snd memory heap].
  assert (Hout : forall x, x < p \/ p + (N + sizeof_jlong) <= x ->
                   store_jlong (fill (memory st) p (N + sizeof_jlong) Byte.x00) p N x
                   = memory st x).
  { intros x Hx. unfold sizeof_jlong in *. unfold store_jlong.
    rewrite store_outside by (simpl; lia).
    unfold fill.
    destruct (Z.leb_spec p x); [| reflexivity].
    destruct (Z.ltb_spec x (p + (N + 8))); [lia | reflexivity]. }
  split; [exact Hout |]. split.
  - intros b l Hin. right. exact Hin.
  - intros b l x Hin Hx. apply Hout.
    specialize (Hdisj b l Hin). lia.
Qed.

Lemma malloc_touches_only_its_block_witness :
  let st := snd (OSMemory_malloc true (Some 0x1000) 16 initial_state) in
  0 <= 4 < 2 ^ 31 /\ fresh_block st 0x2000 (4 + sizeof_jlong) /\
  load_jlong (memory (snd (OSMemory_malloc true (Some 0x2000) 4 st))) 0x1000 = 16.
Proof.
  cbv zeta.
  assert (HN : 0 <= 4 < 2 ^ 31) by (cbv; split; discriminate || reflexivity).
  assert (Hfresh : fresh_block (snd (OSMemory_malloc true (Some 0x1000) 16 initial_state))
                     0x2000 (4 + sizeof_jlong)).
  { split; [reflexivity |]. split; [reflexivity |].
    intros b l [Hb | []]. injection Hb as <- <-. right. cbv. discriminate. }
  split; [exact HN |]. split; [exact Hfresh |].
  destruct (malloc_touches_only_its_block _ 4 0x2000 HN Hfresh) as (Hout & _).
  etransitivity;
    [apply load_jlong_ext; intros x Hx; apply Hout; left; lia |].
  reflexivity.
Defined.

(** X14.  Every call of [allocate] asks the accounting authority exactly
    once, for the requested size, and makes no other call on it: in
    particular, when [calloc] fails after the size was admitted, the
    admission is not taken back by a [trackExternalFree]. *)
Theorem malloc_asks_authority_once
    (allowed : bool) (calloc_ret : option Z) (size : Z) (st : state) :
  is_jint size ->
  runtime (snd (OSMemory_malloc allowed calloc_ret size st))
  = runtime st ++ [trackExternalAllocation size].
Proof.
  intros Hsize. unfold OSMemory_malloc.
  rewrite (to_jlong_id size) by (apply is_jint_is_jlong, Hsize).
  destruct allowed; [| reflexivity].
  destruct calloc_ret; reflexivity.
Qed.

Lemma malloc_asks_authority_once_witness :
  is_jint 64 /\
  runtime (snd (OSMemory_malloc true None 64 initial_state)) = [trackExternalAllocation 64].
Proof.
  assert (Hsize : is_jint 64) by in_range.
  split; [exact Hsize |].
  exact (malloc_asks_authority_once true None 64 initial_state Hsize).
Defined.



(** X16.  [allocate] does not validate its size.  If the authority admits
    a negative size [N] and [calloc] succeeds, the length asked of [calloc]
    is [N + 8] taken modulo [2^32], and the 8-byte header holding [N] is
    written at the start of the block all the same: for [-8 <= N < 0] the
    block has fewer than 8 bytes, so the header runs past its end, and for
    [N < -8] the block is [2^32 + N + 8] bytes long. *)
Theorem malloc_negative_size (st : state) (N p : Z) :
  is_jint N -> N < 0 ->
  let st' := snd (OSMemory_malloc true (Some p) N st) in
  heap st' = (p, to_size_t (N + sizeof_jlong)) :: heap st
  /\ load_jlong (memory st') p = N
  /\ (- 8 <= N -> to_size_t (N + sizeof_jlong) = N + 8 /\ N + 8 < sizeof_jlong)
  /\ (N < - 8 -> to_size_t (N + sizeof_jlong) = 2 ^ 32 + N + 8).
Proof.
  intros HN Hneg. cbv zeta.
  unfold OSMemory_malloc, calloc. cbn [negb snd heap memory set_heap set_memory call_runtime].
  rewrite (to_jlong_id N) by (apply is_jint_is_jlong, HN).
  rewrite load_store_jlong, (to_jlong_id N) by (apply is_jint_is_jlong, HN).
  unfold is_jint, Int.in_signed in HN. change (2 ^ (32 - 1)) with 2147483648 in HN.
  unfold to_size_t, Int.unsigned, sizeof_jlong. change (2 ^ 32) with 4294967296.
  repeat split.
  - apply Z.mod_small. lia.
  - lia.
  - intros Hlow.
    rewrite <- (Z.mod_add (N + 8) 1 4294967296) by lia.
    rewrite Z.mod_small by lia. lia.
Qed.

Lemma malloc_negative_size_witness :
  is_jint (-1) /\ -1 < 0 /\
  heap (snd (OSMemory_malloc true (Some 0x1000) (-1) initial_state)) = [(0x1000, 7)] /\
  load_jlong (memory (snd (OSMemory_malloc true (Some 0x1000) (-1) initial_state))) 0x1000
  = -1.
Proof.
  assert (HN : is_jint (-1)) by in_range.
  assert (Hneg : -1 < 0) by reflexivity.
  split; [exact HN |]. split; [exact Hneg |].
  destruct (malloc_negative_size initial_state (-1) 0x1000 HN Hneg) as (Hheap & Hheader & _).
  split; [exact Hheap | exact Hheader].
Defined.

(** ** Mapping, continued *)

Lemma cast_to_jint q : 0 <= q < 2 ^ 32 -> cast (to_jint q) = q.
Proof.
  intros H. unfold cast, to_jint, to_uintptr_t.
  rewrite (unsigned_signed 32) by lia.
  apply Z.mod_small. exact H.
Qed.

(** X17.  With no exception pending before the call, [map] returns -1
    exactly when it leaves an exception pending (for a bad mode or a failed
    [mmap]); any other result, taken as an unsigned pointer, is the address
    [mmap] returned, also when that address lies in the upper half of the
    address space and the [jint] is negative.  The call changes neither the
    memory nor the allocation bookkeeping. *)
Theorem mmap_result_and_exception
    (mmap_ret errno fd offset size mapMode : Z) (st : state) :
  0 <= mmap_ret < 2 ^ 32 ->
  pending st = None ->
  let r := OSMemory_mmapImpl mmap_ret errno fd offset size mapMode st in
  (fst r = -1 <-> pending (snd r) <> None)
  /\ (fst r <> -1 -> cast (fst r) = mmap_ret)
  /\ memory (snd r) = memory st
  /\ heap (snd r) = heap st
  /\ runtime (snd r) = runtime st.
Proof.
  intros Hret Hpend. cbv zeta. unfold OSMemory_mmapImpl.
  destruct (map_mode_flags mapMode) as [[prot flags] |]; cbn [fst snd].
  - destruct (Z.eqb_spec mmap_ret MAP_FAILED) as [-> | Hok].
    + split; [split; [discriminate | reflexivity] |].
      split; [intros Hne; exfalso; apply Hne; reflexivity |].
      split; [reflexivity |]. split; reflexivity.
    + assert (Hne : to_jint mmap_ret <> -1).
      { intros Heq. apply Hok.
        rewrite <- (cast_to_jint mmap_ret Hret), Heq. reflexivity. }
      cbn [pending memory heap runtime do_syscall]. rewrite Hpend.
      split; [split; [intros Heq; contradiction | intros Hsome; contradiction] |].
      split; [intros _; apply cast_to_jint, Hret |].
      split; [reflexivity |]. split; reflexivity.
  - split; [split; [discriminate | reflexivity] |].
    split; [intros Hne; exfalso; apply Hne; reflexivity |].
    split; [reflexivity |]. split; reflexivity.
Qed.

Lemma mmap_result_and_exception_witness :
  0 <= 0xb7400000 < 2 ^ 32 /\ pending initial_state = None /\
  fst (OSMemory_mmapImpl 0xb7400000 0 5 0 4096 2 initial_state) <> -1 /\
  cast (fst (OSMemory_mmapImpl 0xb7400000 0 5 0 4096 2 initial_state)) = 0xb7400000.
Proof.
  assert (Hret : 0 <= 0xb7400000 < 2 ^ 32) by (cbv; split; discriminate || reflexivity).
  assert (Hpend : pending initial_state = None) by reflexivity.
  assert (Hne : fst (OSMemory_mmapImpl 0xb7400000 0 5 0 4096 2 initial_state) <> -1)
    by (cbv; discriminate).
  split; [exact Hret |]. split; [exact Hpend |]. split; [exact Hne |].
  exact (proj1 (proj2 (mmap_result_and_exception 0xb7400000 0 5 0 4096 2 initial_state
                         Hret Hpend)) Hne).
Defined.

(** ** Residency, continued *)

(** X18.  For a range in the lower half of the address space,
    [isLoaded] answers [true] exactly when every page the range touches is
    resident: the query starts at the page boundary at or below the address
    and covers every page up to the last byte of the range. *)
Theorem isLoaded_iff_every_page_resident
    (page_size : Z) (resident : Z -> bool) (address size : Z) :
  1 < page_size < 2 ^ 31 ->
  0 <= address -> 0 < size -> address + size < 2 ^ 31 ->
  OSMemory_isLoaded page_size (kernel_mincore page_size resident) address size = true
  <-> (forall p, page_in_range page_size address size p -> resident p = true).
Proof. apply isLoaded_low_addresses. Qed.

Lemma isLoaded_iff_every_page_resident_witness :
  1 < 4096 < 2 ^ 31 /\ 0 <= 0x40000ffe /\ 0 < 4 /\ 0x40000ffe + 4 < 2 ^ 31 /\
  OSMemory_isLoaded 4096 (kernel_mincore 4096 (fun p => negb (p =? 0x40001))) 0x40000ffe 4
  = false.
Proof.
  assert (Hps : 1 < 4096 < 2 ^ 31) by (cbv; split; reflexivity).
  assert (Ha : 0 <= 0x40000ffe) by (cbv; discriminate).
  assert (Hs : 0 < 4) by reflexivity.
  assert (Hend : 0x40000ffe + 4 < 2 ^ 31) by reflexivity.
  repeat (split; [assumption |]).
  apply Bool.not_true_is_false. intros Htrue.
  apply (isLoaded_iff_every_page_resident 4096 (fun p => negb (p =? 0x40001))
           0x40000ffe 4 Hps Ha Hs Hend) with (p := 0x40001) in Htrue.
  - discriminate Htrue.
  - cbv. split; discriminate.
Defined.

(** X19.  [isLoaded] never reports an error: a range of size 0 is resident
    without any query, and when [mincore] fails the answer is [false],
    whatever the address and the size. *)
Theorem isLoaded_never_fails
    (page_size : Z) (mincore : Z -> Z -> Z * (Z -> Z)) (address size : Z) :
  size <> 0 ->
  (forall a l, fst (mincore a l) = -1) ->
  OSMemory_isLoaded page_size mincore address 0 = true
  /\ OSMemory_isLoaded page_size mincore address size = false.
Proof.
  intros Hsize Hfail. split.
  - apply isLoaded_zero_size.
  - apply isLoaded_mincore_failure; assumption.
Qed.

Lemma isLoaded_never_fails_witness :
  4096 <> 0 /\
  (forall a l : Z, fst ((fun _ _ => (-1, fun _ : Z => 0)) a l) = -1) /\
  OSMemory_isLoaded 4096 (fun _ _ => (-1, fun _ => 0)) 0x40000000 4096 = false.
Proof.
  assert (Hsize : 4096 <> 0) by discriminate.
  assert (Hfail : forall a l : Z, fst ((fun _ _ => (-1, fun _ : Z => 0)) a l) = -1)
    by (intros a l; reflexivity).
  split; [exact Hsize |]. split; [exact Hfail |].
  exact (proj2 (isLoaded_never_fails 4096 (fun _ _ => (-1, fun _ => 0)) 0x40000000 4096
                  Hsize Hfail)).
Defined.

(** X20.  In the upper half of the address space, where the [jint]
    address is negative, a page-aligned address is queried as it is, but for
    an address that is not page-aligned the signed remainder is negative:
    the queried range starts above the address, at the next page boundary,
    and its length is the size made smaller, not larger. *)
Theorem isLoaded_upper_half_range (page_size address size : Z) :
  0 < page_size ->
  - 2 ^ 31 <= address < 0 ->
  (Z.rem address page_size = 0 ->
   fst (fst (isLoaded_range page_size address size)) = address
   /\ snd (fst (isLoaded_range page_size address size)) = to_jlong size)
  /\ (Z.rem address page_size <> 0 ->
      Z.rem address page_size < 0
      /\ address < fst (fst (isLoaded_range page_size address size))
      /\ snd (fst (isLoaded_range page_size address size))
         = to_jlong (size + Z.rem address page_size)).
Proof.
  intros Hps Ha. split.
  - intros Hrem. unfold isLoaded_range. cbn [fst snd].
    rewrite Hrem, Z.sub_0_r, Z.add_0_r. split; [| reflexivity].
    apply to_jint_id. unfold is_jint, Int.in_signed.
    change (2 ^ (32 - 1)) with (2 ^ 31). lia.
  - intros Hrem.
    destruct (isLoaded_range_high page_size address size Hps Ha Hrem)
      as (Hneg & _ & Hup & Hlen).
    auto.
Qed.

Lemma isLoaded_upper_half_range_witness :
  0 < 4096 /\ - 2 ^ 31 <= -1207955455 < 0 /\ Z.rem (-1207955455) 4096 <> 0 /\
  -1207955455 < fst (fst (isLoaded_range 4096 (-1207955455) 16)).
Proof.
  assert (Hps : 0 < 4096) by reflexivity.
  assert (Ha : - 2 ^ 31 <= -1207955455 < 0) by (cbv; split; discriminate || reflexivity).
  assert (Hrem : Z.rem (-1207955455) 4096 <> 0) by (cbv; discriminate).
  repeat (split; [assumption |]).
  exact (proj1 (proj2 (proj2 (isLoaded_upper_half_range 4096 (-1207955455) 16 Hps Ha) Hrem))).
Defined.

(** ** memmove *)

(** X21.  [memmove] copies [length] bytes from the source address to the
    destination address as if through a buffer: the destination ends up
    with the bytes the source had before the call, also when the two ranges
    overlap, and nothing outside the destination range changes. *)
Theorem memmove_copies_overlapping (m : mem) (dstAddress srcAddress length : Z) :
  0 <= length < 2 ^ 32 ->
  load_bytes (OSMemory_memmove m dstAddress srcAddress length) (cast dstAddress)
             (Z.to_nat length)
  = load_bytes m (cast srcAddress) (Z.to_nat length)
  /\ (forall x, x < cast dstAddress \/ cast dstAddress + length <= x ->
                OSMemory_memmove m dstAddress srcAddress length x = m x).
Proof.
  intros Hlen. unfold OSMemory_memmove, memmove.
  rewrite (to_size_t_small length Hlen).
  split; [apply load_store_bytes_loaded |].
  intros x Hx. apply store_loaded_outside. rewrite Z2Nat.id by lia. exact Hx.
Qed.

Lemma memmove_copies_overlapping_witness :
  let m := store_bytes (fun _ => Byte.x00) 0x1000
             [Byte.x01; Byte.x02; Byte.x03; Byte.x04] in
  0 <= 3 < 2 ^ 32 /\
  load_bytes (OSMemory_memmove m 0x1001 0x1000 3) (cast 0x1001) 3
  = [Byte.x01; Byte.x02; Byte.x03].
Proof.
  cbv zeta.
  assert (Hlen : 0 <= 3 < 2 ^ 32) by (cbv; split; discriminate || reflexivity).
  split; [exact Hlen |].
  etransitivity;
    [exact (proj1 (memmove_copies_overlapping _ 0x1001 0x1000 3 Hlen)) | reflexivity].
Defined.
